(** * Optimistic polling application: vote integrity and optimistic update

    A shallow embedding of the application's server actions
    ([app/actions.ts]), of the read model built by the home page
    ([app/page.tsx]), of the relational store declared in
    [prisma/schema.prisma] and of the client component
    [app/components/PollCard.tsx], followed by the properties of the
    specification that can be stated over them.

    Conventions.
    - A JavaScript string is a Rocq [string], read as its sequence of code
      units below 256.
    - [null] and [undefined] are [None].
    - A JavaScript [number] holding a vote count is a [Z]; [x++] is [x + 1],
      which is exact for every count below [2^53].
    - A table of the store is the list of its rows in insertion order. *)

From Stdlib Require Import ZArith Ascii String List Bool Lia.
From stdpp Require Import base option numbers list strings sorting gmap.

Local Open Scope string_scope.
Local Open Scope Z_scope.
Local Open Scope list_scope.

(** ** JavaScript values *)

(** Truthiness of a value of type [string | null | undefined]: the empty
    string, [null] and [undefined] are falsy. *)
Definition truthy (v : option string) : bool :=
  match v with
  | Some s => negb (String.eqb s "")
  | None => false
  end.

(** WhiteSpace and LineTerminator code units below 256: TAB, LF, VT, FF, CR,
    SP and NBSP. *)
Definition is_white_space (c : ascii) : bool :=
  let n := nat_of_ascii c in
  ((9 <=? n)%nat && (n <=? 13)%nat) || (n =? 32)%nat || (n =? 160)%nat.

Fixpoint trimStart (s : string) : string :=
  match s with
  | EmptyString => EmptyString
  | String c s' => if is_white_space c then trimStart s' else s
  end.

Fixpoint trimEnd (s : string) : string :=
  match s with
  | EmptyString => EmptyString
  | String c s' =>
      match trimEnd s' with
      | EmptyString => if is_white_space c then EmptyString else String c EmptyString
      | t => String c t
      end
  end.

(** [String.prototype.trim]. *)
Definition trim (s : string) : string := trimEnd (trimStart s).

(** A settled promise: the value an [async] function returned, or the
    exception it threw. *)
Inductive Outcome (R E : Type) : Type :=
  | Resolved (value : R)
  | Rejected (reason : E).
Arguments Resolved {R E} value.
Arguments Rejected {R E} reason.

(** ** The session handed out by the identity provider ([auth()]) *)

Module Session.
(** [session.user]: both fields may be missing. *)
Record user_t : Type := mkUser { id : option string; name : option string }.
(** The session object; [auth()] returns [option t]. *)
Record t : Type := mk { user : option user_t }.
End Session.

(** [session?.user?.id] *)
Definition session_user_id (session : option Session.t) : option string :=
  s ← session; u ← Session.user s; Session.id u.

(** The guard [if (!session?.user?.id)] of both server actions: the user id
    when the guard lets the call through, [None] when it rejects. *)
Definition authenticated (session : option Session.t) : option string :=
  match session_user_id session with
  | Some uid => if truthy (Some uid) then Some uid else None
  | None => None
  end.

(** A session as the adapter builds it for a signed-in user. *)
Definition session_of (uid : string) : option Session.t :=
  Some (Session.mk (Some (Session.mkUser (Some uid) None))).

(** ** The store: [prisma/schema.prisma] *)

Module User.
Record t : Type := mk { id : string; name : option string; email : option string }.
End User.

Module Poll.
Record t : Type := mk { id : string; question : string; createdAt : Z; authorId : string }.
End Poll.

Module Option_.
(** [model Option]; the trailing underscore keeps Rocq's [option] apart. *)
Record t : Type := mk { id : string; text : string; pollId : string }.
End Option_.

Module Vote.
Record t : Type := mk { id : string; optionId : string; userId : string }.
End Vote.

(** What a rejected Prisma call throws: a [PrismaClientKnownRequestError]
    with its code, or anything else. *)
Inductive PrismaError : Type :=
  | KnownRequestError (code : string)
  | OtherError.

(** Unique constraint violation. *)
Definition P2002 : PrismaError := KnownRequestError "P2002".
(** Foreign key constraint violation. *)
Definition P2003 : PrismaError := KnownRequestError "P2003".

Module Store.

(** The four application tables and the number of ids handed out so far. *)
Record t : Type := mk {
  users : list User.t;
  polls : list Poll.t;
  options : list Option_.t;
  votes : list Vote.t;
  next : nat
}.

Definition empty : t := mk [] [] [] [] 0.

Definition has_user (uid : string) (d : t) : bool :=
  existsb (fun u => String.eqb (User.id u) uid) (users d).

Definition has_poll (pid : string) (d : t) : bool :=
  existsb (fun p => String.eqb (Poll.id p) pid) (polls d).

Definition has_option (oid : string) (d : t) : bool :=
  existsb (fun o => String.eqb (Option_.id o) oid) (options d).

(** The rows selected by [where: { optionId, userId }]. *)
Definition same_pair (oid uid : string) (v : Vote.t) : bool :=
  String.eqb (Vote.optionId v) oid && String.eqb (Vote.userId v) uid.

Definition has_vote (oid uid : string) (d : t) : bool :=
  existsb (same_pair oid uid) (votes d).

Definition has_email (e : option string) (d : t) : bool :=
  match e with
  | Some a => existsb (fun u => match User.email u with
                                | Some b => String.eqb a b
                                | None => false
                                end) (users d)
  | None => false
  end.

Section Ids.
(** [@default(cuid())]: the generator of row ids, indexed by the number
    of ids issued before. *)
Variable cuid : nat -> string.

(** [prisma.user.create]; [email] is [@unique]. *)
Definition user_create (name email : option string) (d : t)
  : Outcome User.t PrismaError * t :=
  if has_email email d then (Rejected P2002, d)
  else
    let u := User.mk (cuid (next d)) name email in
    (Resolved u, mk (users d ++ [u]) (polls d) (options d) (votes d) (S (next d))).

(** The [Option] rows of a nested [options: { create: [...] }]. *)
Fixpoint new_options (pid : string) (n : nat) (texts : list string) : list Option_.t :=
  match texts with
  | [] => []
  | x :: rest => Option_.mk (cuid n) x pid :: new_options pid (S n) rest
  end.

(** [prisma.poll.create] with nested options: the poll and all its
    options are written together or not at all; [authorId] must
    reference a [User]. *)
Definition poll_create (question authorId : string) (texts : list string) (now : Z) (d : t)
  : Outcome (Poll.t * list Option_.t) PrismaError * t :=
  if negb (has_user authorId d) then (Rejected P2003, d)
  else
    let p := Poll.mk (cuid (next d)) question now authorId in
    let os := new_options (Poll.id p) (S (next d)) texts in
    (Resolved (p, os),
     mk (users d) (polls d ++ [p]) (options d ++ os) (votes d)
        (S (next d) + length texts)%nat).

(** [prisma.vote.create]: rejected by [@@unique([optionId, userId])]
    when the pair is already there, by a foreign key when the option or
    the user is not; otherwise one row is appended. *)
Definition vote_create (optionId userId : string) (d : t)
  : Outcome Vote.t PrismaError * t :=
  if has_vote optionId userId d then (Rejected P2002, d)
  else if negb (has_option optionId d) || negb (has_user userId d) then (Rejected P2003, d)
  else
    let v := Vote.mk (cuid (next d)) optionId userId in
    (Resolved v, mk (users d) (polls d) (options d) (votes d ++ [v]) (S (next d))).
End Ids.

(** [_count: { select: { votes: true } }] of an option. *)
Definition count_votes (oid : string) (d : t) : Z :=
  Z.of_nat (length (filter (fun v => Vote.optionId v = oid) (votes d))).

(** Number of [Vote] rows with the pair [(optionId, userId)]. *)
Definition pair_count (oid uid : string) (d : t) : nat :=
  length (filter (fun v => same_pair oid uid v = true) (votes d)).

(** The relation filter [option: { pollId }] on a vote. *)
Definition vote_in_poll (pid : string) (d : t) (v : Vote.t) : bool :=
  existsb (fun o => String.eqb (Option_.id o) (Vote.optionId v)
                    && String.eqb (Option_.pollId o) pid) (options d).

(** [prisma.vote.findFirst({ where: { userId, option: { pollId } } })]:
    the earliest matching row. *)
Definition find_user_vote (uid pid : string) (d : t) : option Vote.t :=
  List.find (fun v => String.eqb (Vote.userId v) uid && vote_in_poll pid d v) (votes d).

End Store.

(** ** The server actions: [app/actions.ts] *)

(** What a server action does besides computing its result: the calls it
    makes on the Prisma client, cache invalidations and console output. *)
Inductive Effect : Type :=
  | CallPollCreate (question authorId : string) (texts : list string)
  | CallVoteCreate (optionId userId : string)
  | RevalidatePath (path : string)
  | ConsoleError.

(** The server: the store and the effects performed so far, oldest first. *)
Record World : Type := mkWorld { db : Store.t; log : list Effect }.

(** A submitted form: its entries in document order. The form of
    [CreatePollForm] has text inputs only, so every value is a string. *)
Definition FormData : Type := list (string * string).

(** [formData.get(name)] *)
Definition get (name : string) (formData : FormData) : option string :=
  snd <$> List.find (fun e => String.eqb (fst e) name) formData.

(** [formData.getAll(name)] *)
Definition getAll (name : string) (formData : FormData) : list string :=
  map snd (filter (fun e => fst e = name) formData).

(** The messages of the two actions, under the names the specification
    gives to the failures they report. *)
Definition NotAuthenticated : string := "Not authenticated".
Definition ValidationFailed : string := "Question and at least two options are required.".
Definition AuthenticationRequired : string := "Not authenticated. Please sign in to vote.".
Definition InvalidTarget : string := "Invalid option ID provided.".
Definition AlreadyVoted : string := "You have already voted on this poll.".
Definition StorageUnavailable : string := "Could not submit vote. Please try again.".

(** The [catch] block of [submitVote]: the effects it performs and the
    message of the error it throws. *)
Definition submitVote_catch (error : PrismaError) : list Effect * string :=
  match error with
  | KnownRequestError code =>
      if String.eqb code "P2002" then ([], AlreadyVoted)
      else ([ConsoleError], StorageUnavailable)
  | OtherError => ([ConsoleError], StorageUnavailable)
  end.

Section Actions.
Variable cuid : nat -> string.

(** [createPoll(formData)]. [session] is what [await auth()] returned and
    [now] the store's clock at the insert. The action returns
    [{ error }] ([Some error]) or nothing ([None]); an error of the
    store is not caught. *)
Definition createPoll (formData : FormData) (session : option Session.t) (now : Z)
    (w : World) : Outcome (option string) PrismaError * World :=
  match authenticated session with
  | None => (Resolved (Some NotAuthenticated), w)
  | Some uid =>
      let question := get "question" formData in
      let options :=
        filter (fun opt => trim opt ≠ "") (getAll "option" formData) in
      if negb (truthy question) || (length options <? 2)%nat
      then (Resolved (Some ValidationFailed), w)
      else
        let q := default "" question in
        let call := CallPollCreate q uid options in
        match Store.poll_create cuid q uid options now (db w) with
        | (Resolved _, d) => (Resolved None, mkWorld d (log w ++ [call; RevalidatePath "/"]))
        | (Rejected e, d) => (Rejected e, mkWorld d (log w ++ [call]))
        end
  end.

(** [submitVote(optionId)]; [typeof optionId !== "string"] is false for
    every argument of the declared type. *)
Definition submitVote (optionId : string) (session : option Session.t)
    (w : World) : Outcome unit string * World :=
  match authenticated session with
  | None => (Rejected AuthenticationRequired, w)
  | Some uid =>
      if negb (truthy (Some optionId))
      then (Rejected InvalidTarget, w)
      else
        let call := CallVoteCreate optionId uid in
        match Store.vote_create cuid optionId uid (db w) with
        | (Resolved _, d) => (Resolved (), mkWorld d (log w ++ [call; RevalidatePath "/"]))
        | (Rejected e, d) =>
            let '(effects, message) := submitVote_catch e in
            (Rejected message, mkWorld d (log w ++ [call] ++ effects))
        end
  end.

(** What reaches the server. The store executes each insert atomically and
    an action touches the store in one insert only, so concurrent calls
    behave as one of their orders. [SignUp] is the identity provider
    creating the [User] row of a first sign-in. *)
Inductive Request : Type :=
  | SignUp (name email : option string)
  | CreatePoll (formData : FormData) (session : option Session.t) (now : Z)
  | SubmitVote (optionId : string) (session : option Session.t).

Definition step (w : World) (r : Request) : World :=
  match r with
  | SignUp name email => mkWorld (Store.user_create cuid name email (db w)).2 (log w)
  | CreatePoll formData session now => (createPoll formData session now w).2
  | SubmitVote optionId session => (submitVote optionId session w).2
  end.

Definition run (rs : list Request) (w : World) : World := fold_left step rs w.

(** The server before any request. *)
Definition boot : World := mkWorld Store.empty [].
End Actions.

(** ** The read model: [app/page.tsx] *)

Module OptionView.
(** An option with [_count.votes]. *)
Record t : Type := mk { id : string; text : string; pollId : string; votes : Z }.
End OptionView.

Module PollView.
(** [PollWithUserVote]: a poll with [author.name], its options and the
    current user's vote. *)
Record t : Type := mk {
  id : string;
  question : string;
  createdAt : Z;
  authorId : string;
  author : option string;
  options : list OptionView.t;
  userVote : option string
}.
End PollView.

(** [orderBy: { createdAt: 'desc' }] *)
Definition newest_first (p q : Poll.t) : Prop := Poll.createdAt q ≤ Poll.createdAt p.

#[global] Instance newest_first_dec p q : Decision (newest_first p q).
Proof. unfold newest_first. apply _. Defined.

(** [include: { author: { select: { name } } }] *)
Definition author_name (d : Store.t) (authorId : string) : option string :=
  u ← List.find (fun u => String.eqb (User.id u) authorId) (Store.users d); User.name u.

(** [include: { options: { include: { _count: { select: { votes } } } } }] *)
Definition options_with_count (d : Store.t) (pid : string) : list OptionView.t :=
  map (fun o => OptionView.mk (Option_.id o) (Option_.text o) (Option_.pollId o)
                  (Store.count_votes (Option_.id o) d))
      (filter (fun o => Option_.pollId o = pid) (Store.options d)).

(** [userVote] in the callback of [polls.map]: [vote?.optionId || null]. *)
Definition user_vote (session : option Session.t) (d : Store.t) (pid : string) : option string :=
  match authenticated session with
  | Some uid =>
      match Store.find_user_vote uid pid d with
      | Some vote => if truthy (Some (Vote.optionId vote)) then Some (Vote.optionId vote) else None
      | None => None
      end
  | None => None
  end.

(** The callback of [polls.map]: [{ ...poll, userVote }]. *)
Definition poll_view (session : option Session.t) (d : Store.t) (poll : Poll.t) : PollView.t :=
  PollView.mk (Poll.id poll) (Poll.question poll) (Poll.createdAt poll)
    (Poll.authorId poll) (author_name d (Poll.authorId poll))
    (options_with_count d (Poll.id poll))
    (user_vote session d (Poll.id poll)).

(** [pollsWithUserVote] of [HomePage]: the specification's [listPolls]. *)
Definition pollsWithUserVote (session : option Session.t) (d : Store.t) : list PollView.t :=
  map (poll_view session d) (merge_sort newest_first (Store.polls d)).

(** ** The client component: [app/components/PollCard.tsx] *)

(** The option objects of the client live in a heap and are named by their
    address: [pollData.options] is an array of references, and a copy of
    the poll object ([{ ...currentState }]) holds the same references. An
    object is the option with its [_count.votes]; nothing in the component
    replaces an option's [_count] object, so the two are one cell. *)
Abbreviation loc := nat.
Abbreviation Heap := (list OptionView.t).

Module PollObj.
(** The poll object: [PollView.t] with its options by reference. *)
Record t : Type := mk {
  id : string;
  question : string;
  createdAt : Z;
  authorId : string;
  author : option string;
  options : list loc;
  userVote : option string
}.
End PollObj.

(** The props arriving from the server: the poll's option objects are
    allocated at fresh addresses. *)
Definition hydrate (pv : PollView.t) (h : Heap) : PollObj.t * Heap :=
  (PollObj.mk (PollView.id pv) (PollView.question pv) (PollView.createdAt pv)
     (PollView.authorId pv) (PollView.author pv)
     (seq (length h) (length (PollView.options pv))) (PollView.userVote pv),
   h ++ PollView.options pv).

(** [currentState.options.find(o => o.id === votedOptionId)] *)
Definition find_option (h : Heap) (options : list loc) (votedOptionId : string) : option loc :=
  List.find (fun l => match h !! l with
                      | Some o => String.eqb (OptionView.id o) votedOptionId
                      | None => false
                      end) options.

(** [newOption._count.votes++] *)
Definition increment (o : OptionView.t) : OptionView.t :=
  OptionView.mk (OptionView.id o) (OptionView.text o) (OptionView.pollId o)
    (OptionView.votes o + 1).

(** [{ ...currentState, userVote: votedOptionId }] *)
Definition with_userVote (s : PollObj.t) (v : option string) : PollObj.t :=
  PollObj.mk (PollObj.id s) (PollObj.question s) (PollObj.createdAt s)
    (PollObj.authorId s) (PollObj.author s) (PollObj.options s) v.

(** The update function given to [useOptimistic]: the state it returns and
    the heap it leaves. *)
Definition updater (currentState : PollObj.t) (votedOptionId : string) (h : Heap)
    : PollObj.t * Heap :=
  let newOption := find_option h (PollObj.options currentState) votedOptionId in
  let h' := match newOption with
            | Some l => alter increment l h
            | None => h
            end in
  (with_userVote currentState (Some votedOptionId), h').

(** [useOptimistic(pollData, updater)] at one render: the update function
    is run over the guesses of the unfinished actions, oldest first,
    starting from [pollData] itself. *)
Fixpoint useOptimistic (state : PollObj.t) (pending : list string) (h : Heap)
    : PollObj.t * Heap :=
  match pending with
  | [] => (state, h)
  | votedOptionId :: rest =>
      let '(state', h') := updater state votedOptionId h in
      useOptimistic state' rest h'
  end.

(** One mounted [PollCard]: the heap, its props, the guesses of the
    unfinished actions, what the last render got from [useOptimistic], and
    the calls of the [submitVote] server action issued so far. *)
Record Card : Type := mkCard {
  heap : Heap;
  pollData : PollObj.t;
  isLoggedIn : bool;
  pending : list string;
  optimisticPoll : PollObj.t;
  submitted : list string
}.

(** A render of the component. *)
Definition render (c : Card) : Card :=
  let '(view, h) := useOptimistic (pollData c) (pending c) (heap c) in
  mkCard h (pollData c) (isLoggedIn c) (pending c) view (submitted c).

(** The first render. *)
Definition mount (pv : PollView.t) (loggedIn : bool) : Card :=
  let '(p, h) := hydrate pv [] in
  render (mkCard h p loggedIn [] p []).

(** [{option._count.votes}] of every button, with the option's id. *)
Definition shown_votes (c : Card) : list (string * Z) :=
  omap (fun l => (fun o => (OptionView.id o, OptionView.votes o)) <$> heap c !! l)
       (PollObj.options (optimisticPoll c)).

(** [optimisticPoll.options.reduce((sum, opt) => sum + opt._count.votes, 0)] *)
Definition totalVotes (c : Card) : Z :=
  fold_left (fun sum opt => sum + opt.2) (shown_votes c) 0.

(** [disabled={!!optimisticPoll.userVote}], the first revision. *)
Definition disabled_1 (c : Card) : bool :=
  truthy (PollObj.userVote (optimisticPoll c)).

(** [disabled={!!optimisticPoll.userVote || !isLoggedIn}], the second. *)
Definition disabled_2 (c : Card) : bool :=
  truthy (PollObj.userVote (optimisticPoll c)) || negb (isLoggedIn c).

(** [handleVote(optionId)] up to its [await]: the guess is queued, the
    server action is called, and React renders the guess. *)
Definition handleVote (optionId : string) (c : Card) : Card :=
  render (mkCard (heap c) (pollData c) (isLoggedIn c) (pending c ++ [optionId])
            (optimisticPoll c) (submitted c ++ [optionId])).

(** A press on the button of [optionId]: a disabled button does not submit
    its form. [disabled] is [disabled_1] or [disabled_2]. *)
Definition click (disabled : Card -> bool) (optionId : string) (c : Card) : Card :=
  if disabled c then c else handleVote optionId c.

(** [submitVote] has settled and [handleVote] returned, having caught the
    error if there was one: React drops the guesses and renders
    [pollData]. *)
Definition settle (c : Card) : Card :=
  render (mkCard (heap c) (pollData c) (isLoggedIn c) [] (optimisticPoll c) (submitted c)).

(** The page was rendered again on the server (after [revalidatePath]) and
    new props arrive. *)
Definition receive (pv : PollView.t) (c : Card) : Card :=
  let '(p, h) := hydrate pv (heap c) in
  render (mkCard h p (isLoggedIn c) (pending c) (optimisticPoll c) (submitted c)).

(** ** Sample data *)

(** A generator of ids for the examples. *)
Definition sample_cuid (n : nat) : string := String (ascii_of_nat (97 + n)) "".

(** The poll of the specification's scenario: two options, no votes. *)
Definition best_language : PollView.t :=
  PollView.mk "p" "Best language?" 0 "alice" (Some "Alice")
    [OptionView.mk "go" "Go" "p" 0; OptionView.mk "rust" "Rust" "p" 0] None.

(** The session of Alice, whose [User] row gets the id ["a"]. *)
Definition alice : option Session.t := session_of "a".

(** The server of the examples: Alice signs up and creates the poll of the
    scenario, which gets the id ["b"] and its options the ids ["c"] (Go)
    and ["d"] (Rust). *)
Definition scenario : World :=
  run sample_cuid
    [SignUp (Some "Alice") (Some "alice@example.com");
     CreatePoll [("question", "Best language?"); ("option", "Go"); ("option", "Rust")]
       alice 1]
    boot.

(** ** Integrity constraints of the schema *)

(** [@@unique([optionId, userId])] *)
Definition votes_unique (d : Store.t) : Prop :=
  ∀ oid uid, (Store.pair_count oid uid d ≤ 1)%nat.

(** The relations of [Vote]: its option and its user exist. *)
Definition votes_fk (d : Store.t) : Prop :=
  ∀ v, v ∈ Store.votes d →
    Store.has_option (Vote.optionId v) d = true ∧ Store.has_user (Vote.userId v) d = true.

(** The relation of [Option]: its poll exists. *)
Definition options_fk (d : Store.t) : Prop :=
  ∀ o, o ∈ Store.options d → Store.has_poll (Option_.pollId o) d = true.

Definition consistent (d : Store.t) : Prop :=
  votes_unique d ∧ votes_fk d ∧ options_fk d.

(** The votes a user has on the options of a poll. *)
Definition votes_in_poll (uid pid : string) (d : Store.t) : list Vote.t :=
  filter (fun v => Vote.userId v = uid ∧ Store.vote_in_poll pid d v = true) (Store.votes d).

(** The specification's wording of the validation rule of [createPoll]:
    an empty (or missing) question, or fewer than two non-empty option
    texts. *)
Definition invalid_submission (formData : FormData) : Prop :=
  get "question" formData = None ∨ get "question" formData = Some "" ∨
  (length (filter (fun text => text ≠ "") (getAll "option" formData)) < 2)%nat.

(** What happens to a mounted card besides presses and settled calls. *)
Inductive Background : Type :=
  | Rerender
  | Receive (pv : PollView.t).

Definition background (c : Card) (e : Background) : Card :=
  match e with
  | Rerender => render c
  | Receive pv => receive pv c
  end.

(** The ways the store changes: not at all, or by one insert that the
    schema admits. *)
Inductive evolves (d : Store.t) : Store.t -> Prop :=
  | evolves_refl : evolves d d
  | evolves_user (u : User.t) (n : nat) :
      evolves d (Store.mk (Store.users d ++ [u]) (Store.polls d) (Store.options d)
                   (Store.votes d) n)
  | evolves_poll (p : Poll.t) (os : list Option_.t) (n : nat) :
      (∀ o, o ∈ os → Option_.pollId o = Poll.id p) →
      evolves d (Store.mk (Store.users d) (Store.polls d ++ [p]) (Store.options d ++ os)
                   (Store.votes d) n)
  | evolves_vote (v : Vote.t) (n : nat) :
      Store.has_vote (Vote.optionId v) (Vote.userId v) d = false →
      Store.has_option (Vote.optionId v) d = true →
      Store.has_user (Vote.userId v) d = true →
      evolves d (Store.mk (Store.users d) (Store.polls d) (Store.options d)
                   (Store.votes d ++ [v]) n).

(** ** The session callback: [auth.ts] *)

(** [callbacks.session({ session, user })]: the id of the stored user is
    written into [session.user], when the session has one. *)
Definition session_callback (session : Session.t) (user : User.t) : Session.t :=
  match Session.user session with
  | Some u => Session.mk (Some (Session.mkUser (Some (User.id user)) (Session.name u)))
  | None => session
  end.

(** ** The Prisma client of the process: [lib/prisma.ts] *)

(** What the module sees of the process: [globalThis.prisma], and how many
    [PrismaClient] instances have been constructed; an instance is named by
    its rank of construction. *)
Record Process : Type := mkProcess { globalThis_prisma : option nat; constructed : nat }.

(** [prismaClientSingleton()]: [new PrismaClient()]. *)
Definition prismaClientSingleton (g : Process) : nat * Process :=
  (constructed g, mkProcess (globalThis_prisma g) (S (constructed g))).

(** One evaluation of the module: the client it exports and the process it
    leaves. [production] is [process.env.NODE_ENV === "production"]. *)
Definition load_prisma (production : bool) (g : Process) : nat * Process :=
  let '(prisma, g1) :=
    match globalThis_prisma g with
    | Some client => (client, g)
    | None => prismaClientSingleton g
    end in
  (prisma, if production then g1 else mkProcess (Some prisma) (constructed g1)).

(** The module evaluated [n] times in a row, as by hot reloads: the clients
    exported, in order. *)
Fixpoint reloads (production : bool) (n : nat) (g : Process) : list nat * Process :=
  match n with
  | O => ([], g)
  | S k =>
      let '(prisma, g1) := load_prisma production g in
      let '(rest, g2) := reloads production k g1 in
      (prisma :: rest, g2)
  end.

(** ** Seeding: [prisma/seed.ts] *)

(** [await] of a store call inside [main]: a rejection ends [main]. *)
Definition and_then {A B : Type} (r : Outcome A PrismaError * Store.t)
    (k : A -> Store.t -> Outcome B PrismaError * Store.t) : Outcome B PrismaError * Store.t :=
  match r with
  | (Resolved a, d) => k a d
  | (Rejected e, d) => (Rejected e, d)
  end.

(** [poll.options[0]] of a created poll; reading [.id] of a missing element
    throws. *)
Definition first_option (created : Poll.t * list Option_.t) (d : Store.t)
    : Outcome Option_.t PrismaError * Store.t :=
  match created.2 with
  | o :: _ => (Resolved o, d)
  | [] => (Rejected OtherError, d)
  end.

Section Seeding.
Variable cuid : nat -> string.

(** [prisma.user.upsert({ where: { email }, update: {}, create })]: the row
    with that email if there is one, a new row otherwise. *)
Definition user_upsert (name : option string) (email : string) (d : Store.t)
    : Outcome User.t PrismaError * Store.t :=
  match List.find (fun u => match User.email u with
                            | Some b => String.eqb email b
                            | None => false
                            end) (Store.users d) with
  | Some u => (Resolved u, d)
  | None => Store.user_create cuid name (Some email) d
  end.

(** [main] of the seed script that creates its users; [now1], [now2] and
    [now3] are the store's clock at the three poll inserts. The columns of
    [User] that the application never reads ([image], [emailVerified]) are
    not part of the store. A rejection is what [main().catch] receives
    before it exits with code 1. *)
Definition seed_create (now1 now2 now3 : Z) (d : Store.t)
    : Outcome unit PrismaError * Store.t :=
  and_then (Store.user_create cuid (Some "Alice") (Some "alice@example.com") d)
    (fun user1 d =>
  and_then (Store.user_create cuid (Some "Bob") (Some "bob@example.com") d)
    (fun user2 d =>
  and_then (Store.poll_create cuid "What is the best framework for full-stack development?"
              (User.id user1) ["Next.js"; "SvelteKit"; "Nuxt.js"; "Remix"] now1 d)
    (fun poll1 d =>
  and_then (Store.poll_create cuid "Which state management library do you prefer with React?"
              (User.id user1) ["Zustand"; "Redux Toolkit"; "Jotai"] now2 d)
    (fun _ d =>
  and_then (Store.poll_create cuid "What is your favorite programming language?"
              (User.id user2) ["TypeScript"; "Rust"; "Go"] now3 d)
    (fun poll3 d =>
  and_then (first_option poll1 d)
    (fun nextjs d =>
  and_then (Store.vote_create cuid (Option_.id nextjs) (User.id user1) d)
    (fun _ d =>
  and_then (Store.vote_create cuid (Option_.id nextjs) (User.id user2) d)
    (fun _ d =>
  and_then (first_option poll3 d)
    (fun typescript d =>
  and_then (Store.vote_create cuid (Option_.id typescript) (User.id user1) d)
    (fun _ d => (Resolved (), d))))))))))).

(** [main] of the seed script that upserts its users and creates one poll
    with one vote; the result of [prisma.poll.count()] is only printed. *)
Definition seed_upsert (now1 : Z) (d : Store.t) : Outcome unit PrismaError * Store.t :=
  and_then (user_upsert (Some "Alice") "alice@example.com" d)
    (fun user1 d =>
  and_then (user_upsert (Some "Bob") "bob@example.com" d)
    (fun user2 d =>
  and_then (Store.poll_create cuid "What is the best framework for full-stack development?"
              (User.id user1) ["Next.js"; "SvelteKit"] now1 d)
    (fun poll1 d =>
  and_then (first_option poll1 d)
    (fun nextjs d =>
  and_then (Store.vote_create cuid (Option_.id nextjs) (User.id user1) d)
    (fun _ d => (Resolved (), d)))))).

(** ** The poll form: [app/components/CreatePollForm.tsx] *)

(** [form.reset()]: the inputs of the form have no default value. *)
Definition reset (form : FormData) : FormData := map (fun e => (e.1, "")) form.

(** [handleFormAction(formData)]: [form] holds the values of the inputs,
    which are the entries of [formData]; [mounted] tells whether
    [formRef.current] is the form when [createPoll] has settled. What
    [createPoll] returns is not looked at. *)
Definition handleFormAction (form : FormData) (session : option Session.t) (now : Z)
    (mounted : bool) (w : World) : Outcome unit PrismaError * FormData * World :=
  match createPoll cuid form session now w with
  | (Resolved _, w') => (Resolved (), if mounted then reset form else form, w')
  | (Rejected e, w') => (Rejected e, form, w')
  end.
End Seeding.

(** ** The page: [app/page.tsx] *)

(** [!!session] *)
Definition is_logged_in (session : option Session.t) : bool :=
  match session with
  | Some _ => true
  | None => false
  end.

(** What [HomePage] renders: the greeting ([session.user.name], when
    [session?.user] is there), whether the poll form is shown, the cards,
    and whether the notice for an empty list is shown instead. The first
    revision passes no [isLoggedIn] to its cards, which do not read it. *)
Record HomePageView : Type := mkHome {
  greeting : option (option string);
  createPollForm : bool;
  pollCards : list Card;
  noPollsNotice : bool
}.

Definition HomePage (session : option Session.t) (d : Store.t) : HomePageView :=
  let polls := pollsWithUserVote session d in
  mkHome (u ← session ≫= Session.user; Some (Session.name u))
         (is_logged_in session)
         (map (fun pv => mount pv (is_logged_in session)) polls)
         (negb (0 <? length polls)%nat).

(** ** Row ids *)

(** A generator of ids that never repeats, for the examples: ["c"],
    ["ci"], ["cii"], ... *)
Fixpoint marks (n : nat) : string :=
  match n with
  | O => ""
  | S k => String "i" (marks k)
  end.

Definition unary_cuid (n : nat) : string := String "c" (marks n).

(** The ids of all rows of the four tables. *)
Definition all_ids (d : Store.t) : list string :=
  map User.id (Store.users d) ++ map Poll.id (Store.polls d)
  ++ map Option_.id (Store.options d) ++ map Vote.id (Store.votes d).

(** The rows carry exactly the ids handed out so far. *)
Definition ids_issued (cuid : nat -> string) (d : Store.t) : Prop :=
  all_ids d ≡ₚ map cuid (seq 0 (Store.next d)).

(** [email String? @unique] *)
Definition emails_unique (d : Store.t) : Prop :=
  NoDup (omap User.email (Store.users d)).

Definition well_formed (cuid : nat -> string) (d : Store.t) : Prop :=
  consistent d ∧ ids_issued cuid d ∧ emails_unique d.

(** ** Strings *)

Lemma truthy_Some (s : string) : truthy (Some s) = negb (String.eqb s "").
Proof. reflexivity. Qed.

Lemma truthy_true (s : string) : truthy (Some s) = true ↔ s ≠ "".
Proof. rewrite truthy_Some, negb_true_iff. apply String.eqb_neq. Qed.

Lemma trim_empty : trim "" = "".
Proof. reflexivity. Qed.

Example trim_both_ends : trim "  Go lang  " = "Go lang" ∧ trim "   " = "".
Proof. split; reflexivity. Qed.

(** ** The store *)

Lemma same_pair_true (oid uid : string) (v : Vote.t) :
  Store.same_pair oid uid v = true ↔ Vote.optionId v = oid ∧ Vote.userId v = uid.
Proof.
  unfold Store.same_pair. rewrite andb_true_iff, !String.eqb_eq. tauto.
Qed.

Lemma pair_count_snoc (oid uid : string) (d : Store.t) (v : Vote.t) (n : nat) :
  Store.pair_count oid uid
    (Store.mk (Store.users d) (Store.polls d) (Store.options d) (Store.votes d ++ [v]) n)
  = (Store.pair_count oid uid d + (if Store.same_pair oid uid v then 1 else 0))%nat.
Proof.
  unfold Store.pair_count; simpl. rewrite filter_app, length_app. f_equal.
  rewrite filter_cons, filter_nil.
  destruct (Store.same_pair oid uid v); case_decide; simpl; congruence.
Qed.

Lemma has_vote_pair_count (oid uid : string) (d : Store.t) :
  Store.has_vote oid uid d = false ↔ Store.pair_count oid uid d = 0%nat.
Proof.
  unfold Store.has_vote, Store.pair_count.
  induction (Store.votes d) as [|v l IH]; simpl; [done|].
  rewrite filter_cons. destruct (Store.same_pair oid uid v) eqn:E; simpl.
  - split; intros; discriminate.
  - exact IH.
Qed.

Lemma has_vote_true_pair_count (oid uid : string) (d : Store.t) :
  Store.has_vote oid uid d = true ↔ (1 ≤ Store.pair_count oid uid d)%nat.
Proof.
  pose proof (has_vote_pair_count oid uid d) as H.
  destruct (Store.has_vote oid uid d); split; intros Hx; try done.
  - destruct (Store.pair_count oid uid d); [|lia].
    assert (true = false) by (apply H; reflexivity). discriminate.
  - assert (Store.pair_count oid uid d = 0%nat) by (apply H; reflexivity). lia.
Qed.

Lemma new_options_pollId (cuid : nat -> string) (pid : string) (texts : list string) (n : nat) :
  ∀ o, o ∈ Store.new_options cuid pid n texts → Option_.pollId o = pid.
Proof.
  revert n. induction texts as [|x rest IH]; intros n o Ho; simpl in Ho.
  - by apply elem_of_nil in Ho.
  - apply elem_of_cons in Ho as [-> | Ho]; [done | by eapply IH].
Qed.

Lemma vote_create_evolves (cuid : nat -> string) (oid uid : string) (d : Store.t) :
  evolves d (Store.vote_create cuid oid uid d).2.
Proof.
  unfold Store.vote_create.
  destruct (Store.has_vote oid uid d) eqn:Hv; simpl; [constructor|].
  destruct (Store.has_option oid d) eqn:Ho; simpl; [|constructor].
  destruct (Store.has_user uid d) eqn:Hu; simpl; [|constructor].
  by apply (evolves_vote d (Vote.mk (cuid (Store.next d)) oid uid)).
Qed.

Lemma poll_create_evolves (cuid : nat -> string) (q aid : string) (texts : list string)
    (now : Z) (d : Store.t) :
  evolves d (Store.poll_create cuid q aid texts now d).2.
Proof.
  unfold Store.poll_create.
  destruct (Store.has_user aid d); simpl; [|constructor].
  apply evolves_poll. intros o Ho. by apply new_options_pollId in Ho.
Qed.

Lemma submitVote_evolves (cuid : nat -> string) (oid : string) (session : option Session.t)
    (w : World) :
  evolves (db w) (db (submitVote cuid oid session w).2).
Proof.
  unfold submitVote.
  destruct (authenticated session) as [uid|]; [|constructor].
  destruct (truthy (Some oid)); simpl; [|constructor].
  pose proof (vote_create_evolves cuid oid uid (db w)) as H.
  destruct (Store.vote_create cuid oid uid (db w)) as [[v|e] d]; simpl in *; [done|].
  by destruct (submitVote_catch e).
Qed.

Lemma createPoll_evolves (cuid : nat -> string) (formData : FormData)
    (session : option Session.t) (now : Z) (w : World) :
  evolves (db w) (db (createPoll cuid formData session now w).2).
Proof.
  unfold createPoll.
  destruct (authenticated session) as [uid|]; [|constructor].
  match goal with |- context [if ?b then _ else _] => destruct b end; [constructor|].
  match goal with |- context [Store.poll_create ?c ?q ?a ?t ?n ?d] =>
    pose proof (poll_create_evolves c q a t n d) as H;
    destruct (Store.poll_create c q a t n d) as [[r|e] d'] end; exact H.
Qed.

Lemma step_evolves (cuid : nat -> string) (w : World) (r : Request) :
  evolves (db w) (db (step cuid w r)).
Proof.
  destruct r as [name email | formData session now | oid session]; simpl.
  - unfold Store.user_create. destruct (Store.has_email email (db w)); simpl; constructor.
  - apply createPoll_evolves.
  - apply submitVote_evolves.
Qed.

(** Rows are never removed: what exists keeps existing. *)
Lemma evolves_has (d d' : Store.t) :
  evolves d d' →
  (∀ uid, Store.has_user uid d = true → Store.has_user uid d' = true) ∧
  (∀ pid, Store.has_poll pid d = true → Store.has_poll pid d' = true) ∧
  (∀ oid, Store.has_option oid d = true → Store.has_option oid d' = true) ∧
  (∀ oid uid, Store.has_vote oid uid d = true → Store.has_vote oid uid d' = true).
Proof.
  unfold Store.has_user, Store.has_poll, Store.has_option, Store.has_vote.
  intros []; simpl; repeat split; intros; rewrite ?existsb_app; try done;
    by apply orb_true_iff; left.
Qed.

Lemma evolves_votes_unique (d d' : Store.t) :
  evolves d d' → votes_unique d → votes_unique d'.
Proof.
  intros [| | |v n Hv _ _] Hu oid uid; try apply Hu.
  rewrite pair_count_snoc. specialize (Hu oid uid).
  destruct (Store.same_pair oid uid v) eqn:E; [|lia].
  apply same_pair_true in E as [<- <-].
  apply has_vote_pair_count in Hv. lia.
Qed.

Lemma evolves_votes_fk (d d' : Store.t) :
  evolves d d' → votes_fk d → votes_fk d'.
Proof.
  intros Hev Hfk. pose proof (evolves_has d d' Hev) as (Hus & _ & Hop & _).
  destruct Hev as [| | |v n Hv Ho Hu]; intros x Hx; simpl in Hx.
  - by apply Hfk.
  - destruct (Hfk x Hx). split; [by apply Hop | by apply Hus].
  - destruct (Hfk x Hx). split; [by apply Hop | by apply Hus].
  - apply elem_of_app in Hx as [Hx | Hx].
    + destruct (Hfk x Hx). split; [by apply Hop | by apply Hus].
    + apply list_elem_of_singleton in Hx as ->. split; [by apply Hop | by apply Hus].
Qed.

Lemma evolves_options_fk (d d' : Store.t) :
  evolves d d' → options_fk d → options_fk d'.
Proof.
  intros Hev Hfk. pose proof (evolves_has d d' Hev) as (_ & Hpo & _ & _).
  destruct Hev as [| |p os n Hos|]; intros x Hx; simpl in Hx;
    try (apply Hpo; by apply Hfk).
  apply elem_of_app in Hx as [Hx | Hx]; [apply Hpo; by apply Hfk|].
  rewrite (Hos x Hx). unfold Store.has_poll; simpl.
  rewrite existsb_app; simpl. rewrite String.eqb_refl. by rewrite orb_true_r.
Qed.

Lemma evolves_consistent (d d' : Store.t) :
  evolves d d' → consistent d → consistent d'.
Proof.
  intros Hev (H1 & H2 & H3).
  split; [by eapply evolves_votes_unique | split];
    [by eapply evolves_votes_fk | by eapply evolves_options_fk].
Qed.

Lemma empty_consistent : consistent Store.empty.
Proof.
  split; [|split].
  - intros oid uid. unfold Store.pair_count; simpl. lia.
  - intros v Hv. by apply elem_of_nil in Hv.
  - intros o Ho. by apply elem_of_nil in Ho.
Qed.

(** An invariant of the single steps is an invariant of every run. *)
Lemma run_invariant (cuid : nat -> string) (P : Store.t -> Prop) :
  (∀ d d', evolves d d' → P d → P d') →
  ∀ rs w, P (db w) → P (db (run cuid rs w)).
Proof.
  intros Hstep rs. induction rs as [|r rs IH]; intros w Hw; simpl; [done|].
  apply IH. eapply Hstep; [apply step_evolves | done].
Qed.

Lemma run_votes_unique (cuid : nat -> string) (rs : list Request) (w : World) :
  votes_unique (db w) → votes_unique (db (run cuid rs w)).
Proof. apply run_invariant, evolves_votes_unique. Qed.

Lemma run_consistent (cuid : nat -> string) (rs : list Request) (w : World) :
  consistent (db w) → consistent (db (run cuid rs w)).
Proof. apply run_invariant, evolves_consistent. Qed.

Lemma run_has_vote (cuid : nat -> string) (rs : list Request) (w : World) (oid uid : string) :
  Store.has_vote oid uid (db w) = true → Store.has_vote oid uid (db (run cuid rs w)) = true.
Proof.
  apply (run_invariant cuid (fun d => Store.has_vote oid uid d = true)).
  intros d d' Hev. by apply evolves_has.
Qed.

(** The read lists the newest poll first, with the counts of its options
    and the vote of the reader. *)
Example read_newest_first :
  let w := run sample_cuid
             [CreatePoll [("question", "Best editor?"); ("option", "vi"); ("option", "emacs")]
                alice 7;
              SubmitVote "g" alice]
             scenario in
  map (fun pv => (PollView.question pv, PollView.userVote pv,
                  map (fun e => (OptionView.text e, OptionView.votes e))
                      (PollView.options pv)))
      (pollsWithUserVote alice (db w))
  = [("Best editor?", Some "g", [("vi", 0); ("emacs", 1)]);
     ("Best language?", None, [("Go", 0); ("Rust", 0)])].
Proof. vm_compute. reflexivity. Qed.

(** ** [submitVote] *)

(** A first vote of a signed-in user on an existing option is stored. *)
Lemma submitVote_first (cuid : nat -> string) (oid uid : string)
    (session : option Session.t) (w : World) :
  authenticated session = Some uid →
  oid ≠ "" →
  Store.has_option oid (db w) = true →
  Store.has_user uid (db w) = true →
  Store.has_vote oid uid (db w) = false →
  submitVote cuid oid session w =
    (Resolved (),
     mkWorld (Store.mk (Store.users (db w)) (Store.polls (db w)) (Store.options (db w))
                (Store.votes (db w) ++ [Vote.mk (cuid (Store.next (db w))) oid uid])
                (S (Store.next (db w))))
             (log w ++ [CallVoteCreate oid uid; RevalidatePath "/"])).
Proof.
  intros Ha Hne Ho Hu Hv. unfold submitVote, Store.vote_create.
  apply truthy_true in Hne. by rewrite Ha, Hne, Hv, Ho, Hu.
Qed.

(** A vote on a pair that is already stored is refused by the unique
    constraint and reported as [AlreadyVoted]. *)
Lemma submitVote_again (cuid : nat -> string) (oid uid : string)
    (session : option Session.t) (w : World) :
  authenticated session = Some uid →
  oid ≠ "" →
  Store.has_vote oid uid (db w) = true →
  submitVote cuid oid session w =
    (Rejected AlreadyVoted, mkWorld (db w) (log w ++ [CallVoteCreate oid uid])).
Proof.
  intros Ha Hne Hv. unfold submitVote, Store.vote_create.
  apply truthy_true in Hne. by rewrite Ha, Hne, Hv.
Qed.

(** Two calls for one pair, from any store that satisfies the unique
    constraint. *)
Lemma submitVote_twice (cuid : nat -> string) (w : World) (session : option Session.t)
    (uid oid : string) (between : list Request) :
  votes_unique (db w) →
  authenticated session = Some uid →
  oid ≠ "" →
  Store.has_option oid (db w) = true →
  Store.has_user uid (db w) = true →
  Store.has_vote oid uid (db w) = false →
  let first := submitVote cuid oid session w in
  let w2 := run cuid between first.2 in
  let second := submitVote cuid oid session w2 in
  first.1 = Resolved () ∧
  (∃ v, Store.votes (db first.2) = Store.votes (db w) ++ [v] ∧
        Vote.optionId v = oid ∧ Vote.userId v = uid) ∧
  second.1 = Rejected "You have already voted on this poll." ∧
  db second.2 = db w2 ∧
  ∀ later,
    votes_unique (db (run cuid later second.2)) ∧
    Store.pair_count oid uid (db (run cuid later second.2)) = 1%nat.
Proof.
  intros Huniq Ha Hne Ho Hu Hv first w2 second.
  assert (Hfirst : first = submitVote cuid oid session w) by reflexivity.
  rewrite (submitVote_first cuid oid uid session w Ha Hne Ho Hu Hv) in Hfirst.
  assert (Hv1 : Store.has_vote oid uid (db first.2) = true).
  { rewrite Hfirst. unfold Store.has_vote; simpl. rewrite existsb_app; simpl.
    unfold Store.same_pair; simpl. rewrite !String.eqb_refl. simpl. apply orb_true_r. }
  assert (Hv2 : Store.has_vote oid uid (db w2) = true) by by apply run_has_vote.
  assert (Hsecond : second = submitVote cuid oid session w2) by reflexivity.
  rewrite (submitVote_again cuid oid uid session w2 Ha Hne Hv2) in Hsecond.
  assert (Hu2 : votes_unique (db second.2)).
  { rewrite Hsecond; simpl. apply run_votes_unique.
    eapply evolves_votes_unique; [apply submitVote_evolves | done]. }
  split; [by rewrite Hfirst|]. split.
  { exists (Vote.mk (cuid (Store.next (db w))) oid uid). by rewrite Hfirst. }
  split; [by rewrite Hsecond|]. split; [by rewrite Hsecond|].
  intros later.
  assert (Hl : votes_unique (db (run cuid later second.2))) by by apply run_votes_unique.
  split; [done|].
  assert (Store.has_vote oid uid (db (run cuid later second.2)) = true) as Hv3.
  { apply run_has_vote. by rewrite Hsecond. }
  apply has_vote_true_pair_count in Hv3. specialize (Hl oid uid). lia.
Qed.

Lemma scenario_consistent : consistent (db scenario).
Proof. apply run_consistent, empty_consistent. Qed.

(** The ids of the stored options are ids that [cuid] generated. *)
Lemma step_option_ids (cuid : nat -> string) (w : World) (r : Request) (o : Option_.t) :
  o ∈ Store.options (db (step cuid w r)) →
  o ∈ Store.options (db w) ∨ ∃ n, Option_.id o = cuid n.
Proof.
  destruct r as [name email | formData session now | oid session]; simpl.
  - unfold Store.user_create. destruct (Store.has_email email (db w)); simpl; by left.
  - unfold createPoll. destruct (authenticated session) as [uid|]; [|by left].
    match goal with |- context [if ?b then _ else _] => destruct b end; [by left|].
    unfold Store.poll_create.
    match goal with |- context [Store.has_user ?a ?d] => destruct (Store.has_user a d) end;
      simpl; [|by left].
    intros [Hin | Hin]%elem_of_app; [by left | right].
    match type of Hin with _ ∈ Store.new_options _ _ ?n ?texts =>
      revert Hin; generalize n; induction texts as [|x rest IH]; intros k Hin; simpl in Hin end.
    + by apply elem_of_nil in Hin.
    + apply elem_of_cons in Hin as [-> | Hin]; [by exists k | by eapply IH].
  - unfold submitVote, Store.vote_create.
    destruct (authenticated session) as [uid|]; [|by left].
    destruct (truthy (Some oid)); simpl; [|by left].
    destruct (Store.has_vote oid uid (db w)); simpl; [by left|].
    destruct (negb (Store.has_option oid (db w)) || negb (Store.has_user uid (db w)));
      simpl; by left.
Qed.

Lemma run_option_ids (cuid : nat -> string) (history : list Request) (o : Option_.t) :
  (∀ n, cuid n ≠ "") →
  o ∈ Store.options (db (run cuid history boot)) → Option_.id o ≠ "".
Proof.
  intros Hcuid.
  assert (∀ rs w, (∀ x, x ∈ Store.options (db w) → Option_.id x ≠ "") →
                  ∀ x, x ∈ Store.options (db (run cuid rs w)) → Option_.id x ≠ "") as H.
  { induction rs as [|r rs IH]; intros w Hw x Hx; simpl in Hx; [by apply Hw|].
    apply (IH (step cuid w r)); [|done].
    intros y Hy. apply step_option_ids in Hy as [Hy | [n ->]]; [by apply Hw | apply Hcuid]. }
  apply H. intros x Hx. by apply elem_of_nil in Hx.
Qed.

Lemma has_option_nonempty (cuid : nat -> string) (history : list Request) (oid : string) :
  (∀ n, cuid n ≠ "") →
  Store.has_option oid (db (run cuid history boot)) = true → oid ≠ "".
Proof.
  intros Hcuid Ho. apply existsb_exists in Ho as (o & Hin & <-%String.eqb_eq).
  apply (run_option_ids cuid history o Hcuid). by apply list_elem_of_In.
Qed.

(** C1. In every state the server can reach, the pair (optionId, userId)
    is unique among the Vote rows; and of two submitVote calls of one
    signed-in user for one existing option not voted on before, whatever
    other requests the server handles between them, the first succeeds and
    stores exactly one new row, the second fails with "You have already
    voted on this poll." and stores nothing, and the pair has exactly one
    row from then on. *)
Theorem vote_pair_unique (cuid : nat -> string) (history between : list Request)
    (session : option Session.t) (uid oid : string) :
  (∀ n, cuid n ≠ "") →
  authenticated session = Some uid →
  let w := run cuid history boot in
  Store.has_option oid (db w) = true →
  Store.has_user uid (db w) = true →
  Store.has_vote oid uid (db w) = false →
  let first := submitVote cuid oid session w in
  let w2 := run cuid between first.2 in
  let second := submitVote cuid oid session w2 in
  (∀ requests, votes_unique (db (run cuid requests boot))) ∧
  first.1 = Resolved () ∧
  (∃ v, Store.votes (db first.2) = Store.votes (db w) ++ [v] ∧
        Vote.optionId v = oid ∧ Vote.userId v = uid) ∧
  second.1 = Rejected "You have already voted on this poll." ∧
  db second.2 = db w2 ∧
  ∀ later,
    votes_unique (db (run cuid later second.2)) ∧
    Store.pair_count oid uid (db (run cuid later second.2)) = 1%nat.
Proof.
  intros Hcuid Ha w Ho Hu Hv.
  assert (Huniq : ∀ requests, votes_unique (db (run cuid requests boot)))
    by (intros requests; apply run_votes_unique, empty_consistent).
  pose proof (has_option_nonempty cuid history oid Hcuid Ho) as Hne.
  split; [done|].
  exact (submitVote_twice cuid w session uid oid between (Huniq history) Ha Hne Ho Hu Hv).
Qed.

Lemma sample_cuid_nonempty : ∀ n, sample_cuid n ≠ "".
Proof. intros n. discriminate. Qed.

Lemma vote_pair_unique_witness :
  (submitVote sample_cuid "c" alice
     (run sample_cuid [SubmitVote "d" alice]
        (submitVote sample_cuid "c" alice scenario).2)).1
  = Rejected "You have already voted on this poll.".
Proof.
  destruct (vote_pair_unique sample_cuid
              [SignUp (Some "Alice") (Some "alice@example.com");
               CreatePoll [("question", "Best language?"); ("option", "Go");
                           ("option", "Rust")] alice 1]
              [SubmitVote "d" alice] alice "a" "c")
    as (_ & _ & _ & H & _).
  - apply sample_cuid_nonempty.
  - reflexivity.
  - reflexivity.
  - reflexivity.
  - reflexivity.
  - exact H.
Defined.

(** C3. The server accepts two votes of one user on two options of the same
    poll: after Alice's votes for Go and for Rust, both of which succeed,
    two Vote rows of hers belong to the poll. *)
Theorem two_votes_in_one_poll :
  let first := submitVote sample_cuid "c" alice scenario in
  let second := submitVote sample_cuid "d" alice first.2 in
  first.1 = Resolved () ∧ second.1 = Resolved () ∧
  map Option_.pollId (Store.options (db scenario)) = ["b"; "b"] ∧
  votes_in_poll "a" "b" (db second.2) = [Vote.mk "e" "c" "a"; Vote.mk "f" "d" "a"].
Proof. vm_compute. repeat split. Qed.

(** ** Unknown options *)

(** C6, as stated, fails: a vote of a signed-in user for an id that names no
    option is answered with the fallback of the catch block, the message of
    every store error other than P2002, not with the error for an invalid
    option id. *)
Lemma unknown_option_gets_fallback :
  Store.has_option "zz" (db scenario) = false ∧
  (submitVote sample_cuid "zz" alice scenario).1
    = Rejected "Could not submit vote. Please try again." ∧
  (submitVote sample_cuid "zz" alice scenario).1 ≠ Rejected InvalidTarget ∧
  (submitVote_catch P2003).2 = (submitVote_catch OtherError).2.
Proof. vm_compute. repeat split. discriminate. Qed.

(** The same from any store in which every vote has its option. *)
Lemma unknown_option_fallback (cuid : nat -> string) (w : World)
    (session : option Session.t) (uid oid : string) :
  authenticated session = Some uid →
  votes_fk (db w) →
  Store.has_option oid (db w) = false →
  submitVote cuid oid session w =
    if String.eqb oid ""
    then (Rejected "Invalid option ID provided.", w)
    else (Rejected "Could not submit vote. Please try again.",
          mkWorld (db w) (log w ++ [CallVoteCreate oid uid; ConsoleError])).
Proof.
  intros Ha Hfk Ho. unfold submitVote, Store.vote_create. rewrite Ha, truthy_Some.
  destruct (String.eqb oid "") eqn:E; simpl; [done|].
  destruct (Store.has_vote oid uid (db w)) eqn:Hv.
  - exfalso. unfold Store.has_vote in Hv. apply existsb_exists in Hv as (v & Hin & Hp).
    apply same_pair_true in Hp as [<- _].
    apply list_elem_of_In in Hin. destruct (Hfk v Hin) as [Hx _]. congruence.
  - by rewrite Ho.
Qed.

(** C6, amended. In every state the server can reach, a vote of a signed-in
    user for an id that names no option fails and leaves the store as it
    was: with "Invalid option ID provided." before any insert when the id is
    empty, and otherwise with "Could not submit vote. Please try again.",
    after the store refused the insert. *)
Theorem unknown_option_rejected (cuid : nat -> string) (history : list Request)
    (session : option Session.t) (uid oid : string) :
  authenticated session = Some uid →
  let w := run cuid history boot in
  Store.has_option oid (db w) = false →
  submitVote cuid oid session w =
    if String.eqb oid ""
    then (Rejected "Invalid option ID provided.", w)
    else (Rejected "Could not submit vote. Please try again.",
          mkWorld (db w) (log w ++ [CallVoteCreate oid uid; ConsoleError])).
Proof.
  intros Ha w Ho. apply unknown_option_fallback; [done | | done].
  apply (run_consistent cuid history boot), empty_consistent.
Qed.

Lemma unknown_option_rejected_witness :
  submitVote sample_cuid "zz" alice scenario =
    (Rejected "Could not submit vote. Please try again.",
     mkWorld (db scenario) (log scenario ++ [CallVoteCreate "zz" "a"; ConsoleError])).
Proof.
  apply (unknown_option_rejected sample_cuid
           [SignUp (Some "Alice") (Some "alice@example.com");
            CreatePoll [("question", "Best language?"); ("option", "Go");
                        ("option", "Rust")] alice 1]
           alice "a" "zz").
  - reflexivity.
  - reflexivity.
Defined.

(** ** [createPoll] *)

(** The options that survive the filter of [createPoll] are among the
    non-empty ones. *)
Lemma trimmed_options_le (texts : list string) :
  (length (filter (fun opt => trim opt ≠ "") texts)
   ≤ length (filter (fun text => text ≠ "") texts))%nat.
Proof.
  induction texts as [|x rest IH]; [done|].
  rewrite !filter_cons.
  destruct (decide (trim x ≠ "")) as [Ht|Ht]; destruct (decide (x ≠ "")) as [Hx|Hx];
    simpl; try lia.
  exfalso. apply Ht. destruct (decide (x = "")) as [->|]; [apply trim_empty | done].
Qed.

Lemma invalid_submission_guard (formData : FormData) :
  invalid_submission formData →
  negb (truthy (get "question" formData))
  || (length (filter (fun opt => trim opt ≠ "") (getAll "option" formData)) <? 2)%nat = true.
Proof.
  intros [Hq | [Hq | Hn]].
  - by rewrite Hq.
  - by rewrite Hq.
  - apply orb_true_iff. right. apply Nat.ltb_lt.
    pose proof (trimmed_options_le (getAll "option" formData)). lia.
Qed.

(** C7. A createPoll submission of a signed-in user with an empty question
    or with fewer than two non-empty option texts is answered with
    "Question and at least two options are required."; the server is left
    as it was: no row is written and the store is not even called. *)
Theorem createPoll_validation (cuid : nat -> string) (formData : FormData)
    (session : option Session.t) (uid : string) (now : Z) (w : World) :
  authenticated session = Some uid →
  invalid_submission formData →
  createPoll cuid formData session now w
  = (Resolved (Some "Question and at least two options are required."), w).
Proof.
  intros Ha Hinv. unfold createPoll.
  by rewrite Ha, (invalid_submission_guard formData Hinv).
Qed.

Lemma createPoll_validation_witness :
  createPoll sample_cuid [("question", "X"); ("option", "only one")] alice 2 scenario
  = (Resolved (Some "Question and at least two options are required."), scenario).
Proof.
  apply (createPoll_validation sample_cuid _ alice "a").
  - reflexivity.
  - right. right. vm_compute. lia.
Defined.

(** ** Unauthenticated calls *)

Lemma not_authenticated (session : option Session.t) :
  truthy (session_user_id session) = false → authenticated session = None.
Proof.
  unfold authenticated. destruct (session_user_id session) as [uid|]; [|done].
  by intros ->.
Qed.

(** C9. Without a signed-in user (no session, no user in it, no id or an
    empty one) submitVote throws "Not authenticated. Please sign in to
    vote." and createPoll returns the error "Not authenticated"; both leave
    the server as it was: no row is written and the store is not called. *)
Theorem unauthenticated_rejected (cuid : nat -> string) (session : option Session.t)
    (w : World) :
  truthy (session_user_id session) = false →
  (∀ optionId,
     submitVote cuid optionId session w
     = (Rejected "Not authenticated. Please sign in to vote.", w)) ∧
  (∀ formData now,
     createPoll cuid formData session now w = (Resolved (Some "Not authenticated"), w)).
Proof.
  intros Hs. apply not_authenticated in Hs.
  split; intros; [unfold submitVote | unfold createPoll]; by rewrite Hs.
Qed.

Lemma unauthenticated_rejected_witness :
  (∀ optionId,
     submitVote sample_cuid optionId None scenario
     = (Rejected "Not authenticated. Please sign in to vote.", scenario)) ∧
  (∀ formData now,
     createPoll sample_cuid formData None now scenario
     = (Resolved (Some "Not authenticated"), scenario)).
Proof.
  apply (unauthenticated_rejected sample_cuid None scenario). reflexivity.
Defined.

(** ** The update function of [useOptimistic] *)

Lemma updater_found (s : PollObj.t) (o : string) (h : Heap) (l : loc) :
  find_option h (PollObj.options s) o = Some l →
  updater s o h = (with_userVote s (Some o), alter increment l h).
Proof. intros H. unfold updater. by rewrite H. Qed.

Lemma updater_not_found (s : PollObj.t) (o : string) (h : Heap) :
  find_option h (PollObj.options s) o = None →
  updater s o h = (with_userVote s (Some o), h).
Proof. intros H. unfold updater. by rewrite H. Qed.

(** The object that [find] returns is the option of that id. *)
Lemma find_option_Some (h : Heap) (options : list loc) (o : string) (l : loc) :
  find_option h options o = Some l →
  l ∈ options ∧ ∃ ob, h !! l = Some ob ∧ OptionView.id ob = o.
Proof.
  unfold find_option. intros H. apply find_some in H as [Hin Hl].
  split; [by apply list_elem_of_In|].
  destruct (h !! l) as [ob|]; [|done]. exists ob. split; [done|].
  by apply String.eqb_eq.
Qed.

Lemma useOptimistic_app (s : PollObj.t) (p q : list string) (h : Heap) :
  useOptimistic s (p ++ q) h =
    useOptimistic (useOptimistic s p h).1 q (useOptimistic s p h).2.
Proof.
  revert s h. induction p as [|a p IH]; intros s h; simpl; [done|].
  destruct (updater s a h) as [s' h'] eqn:E. apply IH.
Qed.

(** The view carries the last guess and the options of [pollData]. *)
Lemma useOptimistic_last (s : PollObj.t) (p : list string) (o : string) (h : Heap) :
  PollObj.userVote (useOptimistic s (p ++ [o]) h).1 = Some o.
Proof.
  rewrite useOptimistic_app. simpl.
  by destruct (updater (useOptimistic s p h).1 o (useOptimistic s p h).2) eqn:E.
Qed.

Lemma render_pending (c : Card) :
  pending (render c) = pending c ∧ submitted (render c) = submitted c ∧
  isLoggedIn (render c) = isLoggedIn c ∧ pollData (render c) = pollData c.
Proof.
  unfold render. by destruct (useOptimistic (pollData c) (pending c) (heap c)).
Qed.

Lemma render_userVote (c : Card) (p : list string) (o : string) :
  pending c = p ++ [o] → PollObj.userVote (optimisticPoll (render c)) = Some o.
Proof.
  intros Hp. unfold render.
  pose proof (useOptimistic_last (pollData c) p o (heap c)) as H. rewrite <- Hp in H.
  by destruct (useOptimistic (pollData c) (pending c) (heap c)).
Qed.

(** While a guess is queued, whatever else happens to the card, the view
    shows the guess as the user's vote. *)
Lemma background_pending (evs : list Background) (c : Card) (p : list string) (o : string) :
  pending c = p ++ [o] →
  PollObj.userVote (optimisticPoll c) = Some o →
  let c' := fold_left background evs c in
  pending c' = p ++ [o] ∧ PollObj.userVote (optimisticPoll c') = Some o ∧
  submitted c' = submitted c ∧ isLoggedIn c' = isLoggedIn c.
Proof.
  revert c. induction evs as [|e evs IH]; intros c Hp Hv; simpl; [done|].
  assert (pending (background c e) = p ++ [o] ∧
          PollObj.userVote (optimisticPoll (background c e)) = Some o ∧
          submitted (background c e) = submitted c ∧
          isLoggedIn (background c e) = isLoggedIn c) as (H1 & H2 & H3 & H4).
  { destruct e as [|pv]; simpl.
    - destruct (render_pending c) as (-> & -> & -> & _).
      split; [done|]. split; [by eapply render_userVote | done].
    - unfold receive. destruct (hydrate pv (heap c)) as [q h].
      match goal with |- context [render ?x] =>
        destruct (render_pending x) as (-> & -> & -> & _);
        split; [done|]; split; [by apply (render_userVote x p o) | done] end. }
  destruct (IH (background c e) H1 H2) as (? & ? & ? & ?).
  split; [done|]. split; [done|]. split; congruence.
Qed.

Lemma handleVote_pending (o : string) (c : Card) :
  pending (handleVote o c) = pending c ++ [o] ∧
  PollObj.userVote (optimisticPoll (handleVote o c)) = Some o ∧
  submitted (handleVote o c) = submitted c ++ [o] ∧
  isLoggedIn (handleVote o c) = isLoggedIn c.
Proof.
  unfold handleVote.
  match goal with |- context [render ?x] =>
    destruct (render_pending x) as (-> & -> & -> & _);
    pose proof (render_userVote x (pending c) o eq_refl) end.
  done.
Qed.

(** The first press on an idle card runs the update function once. *)
Lemma handleVote_idle (o : string) (c : Card) :
  pending c = [] →
  handleVote o c =
    mkCard (updater (pollData c) o (heap c)).2 (pollData c) (isLoggedIn c) [o]
           (updater (pollData c) o (heap c)).1 (submitted c ++ [o]).
Proof.
  intros Hp. unfold handleVote, render.
  cbn [pollData pending heap isLoggedIn submitted]. rewrite Hp.
  cbn [app useOptimistic]. by destruct (updater (pollData c) o (heap c)).
Qed.

(** ** No double submit *)

(** A press while a guess with a non-empty id is queued is ignored, in both
    revisions of the component and whatever renders and refreshes happened
    since the press that queued it. *)
Lemma second_press_ignored (disabled : Card -> bool) (c : Card) (o o' : string)
    (evs : list Background) :
  disabled = disabled_1 ∨ disabled = disabled_2 →
  disabled c = false →
  o ≠ "" →
  let c1 := fold_left background evs (click disabled o c) in
  click disabled o' c1 = c1 ∧
  submitted c1 = submitted c ++ [o] ∧
  pending c1 = pending c ++ [o].
Proof.
  intros Hd Hen Hne c1.
  assert (Hc : click disabled o c = handleVote o c) by (unfold click; by rewrite Hen).
  destruct (handleVote_pending o c) as (Hp & Hv & Hs & _).
  destruct (background_pending evs (handleVote o c) (pending c) o Hp Hv)
    as (Hp1 & Hv1 & Hs1 & _).
  subst c1. rewrite Hc. split; [|split; congruence].
  apply truthy_true in Hne. unfold click.
  assert (disabled (fold_left background evs (handleVote o c)) = true) as ->; [|done].
  destruct Hd as [-> | ->]; unfold disabled_1, disabled_2; by rewrite Hv1, Hne.
Qed.

(** ** Rollback *)

(** What a press followed by a settled call leaves behind, on an idle card
    whose buttons are enabled: the view is [pollData] again, and the option
    that was voted for has been incremented in place. *)
Lemma press_and_settle (disabled : Card -> bool) (c : Card) (o : string) (l : loc) :
  pending c = [] →
  disabled c = false →
  find_option (heap c) (PollObj.options (pollData c)) o = Some l →
  let c2 := settle (click disabled o c) in
  optimisticPoll c2 = pollData c ∧
  heap c2 = alter increment l (heap c) ∧
  pending c2 = [].
Proof.
  intros Hp Hen Hf. unfold click. rewrite Hen, (handleVote_idle o c Hp).
  by rewrite (updater_found _ _ _ _ Hf).
Qed.

Lemma press_and_settle_count (disabled : Card -> bool) (c : Card) (o : string) (l : loc)
    (ob : OptionView.t) :
  pending c = [] →
  disabled c = false →
  find_option (heap c) (PollObj.options (pollData c)) o = Some l →
  heap c !! l = Some ob →
  heap (settle (click disabled o c)) !! l = Some (increment ob) ∧
  OptionView.votes (increment ob) = OptionView.votes ob + 1.
Proof.
  intros Hp Hen Hf Hl.
  pose proof (press_and_settle disabled c o l Hp Hen Hf) as H. cbv zeta in H.
  destruct H as (_ & H & _). rewrite H.
  split; [|done]. rewrite list_lookup_alter_eq. by rewrite Hl.
Qed.

(** C2. After a failed vote for Go the card shows the user's vote cleared
    again, but Go keeps the count 1 of the guess instead of the 0 it had
    before: the update function incremented the option object of [pollData]
    itself, and the render after the failure reads that object. *)
Theorem rollback_keeps_increment :
  let c := mount best_language true in
  let failed := settle (click disabled_1 "go" c) in
  shown_votes c = [("go", 0); ("rust", 0)] ∧
  shown_votes (click disabled_1 "go" c) = [("go", 1); ("rust", 0)] ∧
  shown_votes failed = [("go", 1); ("rust", 0)] ∧
  shown_votes failed ≠ shown_votes c ∧
  PollObj.userVote (optimisticPoll failed) = PollObj.userVote (optimisticPoll c) ∧
  settle (click disabled_2 "go" c) = failed.
Proof. vm_compute. repeat split. discriminate. Qed.

(** C4. The update function changes its argument: applied to the poll of
    the scenario and the guess Go, it sets the count of the poll's own Go
    option to 1, and applied again to the same poll and guess it yields a
    view with the count 2. *)
Theorem updater_changes_pollData :
  let '(s, h) := hydrate best_language [] in
  let '(view1, h1) := updater s "go" h in
  let '(view2, h2) := updater s "go" h1 in
  OptionView.votes <$> h !! 0%nat = Some 0 ∧
  OptionView.votes <$> h1 !! 0%nat = Some 1 ∧
  OptionView.votes <$> h2 !! 0%nat = Some 2 ∧
  h1 ≠ h ∧ view1 = view2 ∧ PollObj.options view1 = PollObj.options s.
Proof. vm_compute. repeat split. discriminate. Qed.

(** The same for every poll and every guess that matches one of its
    options. *)
Lemma updater_increments_in_place (s : PollObj.t) (o : string) (h : Heap) (l : loc) :
  find_option h (PollObj.options s) o = Some l →
  ∃ ob, h !! l = Some ob ∧
        (updater s o h).2 !! l = Some (increment ob) ∧
        (updater s o h).2 ≠ h.
Proof.
  intros Hf. destruct (find_option_Some _ _ _ _ Hf) as (_ & ob & Hl & _).
  exists ob. rewrite (updater_found _ _ _ _ Hf); simpl.
  assert (alter increment l h !! l = Some (increment ob)) as Ha
    by (rewrite list_lookup_alter_eq; by rewrite Hl).
  split; [done|]. split; [done|].
  intros Heq. rewrite Heq, Hl in Ha. injection Ha as Ha.
  apply (f_equal OptionView.votes) in Ha. simpl in Ha. lia.
Qed.

(** ** A guess that matches no option *)

(** C10, as stated, fails for the empty id: it matches no option of the
    poll, no count changes and the user's vote becomes the empty string,
    but that is falsy and the buttons stay enabled. *)
Lemma unmatched_empty_id_keeps_buttons :
  let c := mount best_language true in
  let c1 := handleVote "" c in
  find_option (heap c) (PollObj.options (pollData c)) "" = None ∧
  shown_votes c1 = shown_votes c ∧
  PollObj.userVote (optimisticPoll c1) = Some "" ∧
  disabled_1 c1 = false ∧ disabled_2 c1 = false.
Proof. vm_compute. repeat split. Qed.

(** C10, amended. A guess that matches none of the poll's options changes
    no count and becomes the user's vote of the view; the buttons are
    disabled exactly when the guess is not the empty string (or, in the
    second revision, nobody is signed in). *)
Theorem unmatched_guess (c : Card) (o : string) :
  pending c = [] →
  optimisticPoll c = pollData c →
  find_option (heap c) (PollObj.options (pollData c)) o = None →
  let c1 := handleVote o c in
  updater (pollData c) o (heap c) = (optimisticPoll c1, heap c) ∧
  heap c1 = heap c ∧
  shown_votes c1 = shown_votes c ∧
  PollObj.userVote (optimisticPoll c1) = Some o ∧
  disabled_1 c1 = negb (String.eqb o "") ∧
  disabled_2 c1 = negb (String.eqb o "") || negb (isLoggedIn c).
Proof.
  intros Hp Hv Hf c1. pose proof (updater_not_found _ _ _ Hf) as Hu.
  assert (c1 = mkCard (heap c) (pollData c) (isLoggedIn c) [o]
                 (with_userVote (pollData c) (Some o)) (submitted c ++ [o])) as ->.
  { subst c1. by rewrite (handleVote_idle o c Hp), Hu. }
  unfold disabled_1, disabled_2, shown_votes.
  cbn [optimisticPoll heap isLoggedIn with_userVote PollObj.userVote PollObj.options].
  rewrite Hv, truthy_Some. done.
Qed.

Lemma unmatched_guess_witness :
  let c := mount best_language true in
  let c1 := handleVote "java" c in
  updater (pollData c) "java" (heap c) = (optimisticPoll c1, heap c) ∧
  heap c1 = heap c ∧
  shown_votes c1 = shown_votes c ∧
  PollObj.userVote (optimisticPoll c1) = Some "java" ∧
  disabled_1 c1 = negb (String.eqb "java" "") ∧
  disabled_2 c1 = negb (String.eqb "java" "") || negb (isLoggedIn c).
Proof.
  apply (unmatched_guess (mount best_language true) "java"); reflexivity.
Defined.

(** ** Reading after a vote *)

Lemma submitVote_resolved (cuid : nat -> string) (oid : string) (session : option Session.t)
    (w : World) :
  (submitVote cuid oid session w).1 = Resolved () →
  ∃ uid, authenticated session = Some uid ∧ oid ≠ "" ∧
         Store.has_option oid (db w) = true ∧ Store.has_user uid (db w) = true ∧
         Store.has_vote oid uid (db w) = false.
Proof.
  unfold submitVote, Store.vote_create.
  destruct (authenticated session) as [uid|]; [|done].
  destruct (truthy (Some oid)) eqn:Ht; simpl; [|done].
  destruct (Store.has_vote oid uid (db w)) eqn:Hv; simpl; [done|].
  destruct (Store.has_option oid (db w)) eqn:Ho; simpl; [|done].
  destruct (Store.has_user uid (db w)) eqn:Hu; simpl; [|done].
  intros _. exists uid. by apply truthy_true in Ht.
Qed.

Lemma options_with_count_elem (d : Store.t) (pid : string) (e : OptionView.t) :
  e ∈ options_with_count d pid ↔
  ∃ o, o ∈ Store.options d ∧ Option_.pollId o = pid ∧
       e = OptionView.mk (Option_.id o) (Option_.text o) (Option_.pollId o)
             (Store.count_votes (Option_.id o) d).
Proof.
  unfold options_with_count. rewrite list_elem_of_In, in_map_iff. split.
  - intros (o & <- & Hin). apply list_elem_of_In, list_elem_of_filter in Hin as [Hp Hin].
    by exists o.
  - intros (o & Hin & Hp & ->). exists o. split; [done|].
    apply list_elem_of_In, list_elem_of_filter. by split.
Qed.

Lemma pollsWithUserVote_elem (session : option Session.t) (d : Store.t) (pv : PollView.t) :
  pv ∈ pollsWithUserVote session d ↔
  ∃ poll, poll ∈ Store.polls d ∧ pv = poll_view session d poll.
Proof.
  unfold pollsWithUserVote. rewrite list_elem_of_In, in_map_iff.
  split; intros (poll & H1 & H2).
  - exists poll. split; [|done].
    apply list_elem_of_In in H2. by rewrite merge_sort_Permutation in H2.
  - exists poll. split; [done|].
    apply list_elem_of_In. by rewrite merge_sort_Permutation.
Qed.

Lemma existsb_elem {A} (f : A -> bool) (l : list A) :
  existsb f l = true ↔ ∃ x, x ∈ l ∧ f x = true.
Proof.
  rewrite existsb_exists. split; intros (x & H1 & H2); exists x; split; try done;
    by apply list_elem_of_In.
Qed.

Lemma find_pointwise {A} (f g : A -> bool) (l : list A) :
  (∀ x, f x = g x) → List.find f l = List.find g l.
Proof.
  intros Hfg. induction l as [|y l IH]; simpl; [done|]. by rewrite Hfg, IH.
Qed.

Lemma find_snoc {A} (f : A -> bool) (l : list A) (x : A) :
  List.find f l = None → List.find f (l ++ [x]) = if f x then Some x else None.
Proof.
  induction l as [|y l IH]; simpl; [done|].
  destruct (f y); [done | exact IH].
Qed.

(** A read after a successful vote, against the read before it: the polls
    are the same, the option voted for is listed, its count is one more
    than before, and the poll shows the vote as the user's when the user
    had no vote on that poll. *)
Lemma read_after_vote (cuid : nat -> string) (w : World) (session : option Session.t)
    (oid : string) :
  options_fk (db w) →
  (submitVote cuid oid session w).1 = Resolved () →
  let d := db w in
  let d' := db (submitVote cuid oid session w).2 in
  ∃ uid, authenticated session = Some uid ∧
    map PollView.id (pollsWithUserVote session d')
      = map PollView.id (pollsWithUserVote session d) ∧
    (∃ pv e, pv ∈ pollsWithUserVote session d' ∧ e ∈ PollView.options pv ∧
             OptionView.id e = oid) ∧
    (∀ pv e, pv ∈ pollsWithUserVote session d → e ∈ PollView.options pv →
             OptionView.id e = oid → OptionView.votes e = Store.count_votes oid d) ∧
    (∀ pv e, pv ∈ pollsWithUserVote session d' → e ∈ PollView.options pv →
             OptionView.id e = oid →
             OptionView.votes e = Store.count_votes oid d + 1 ∧
             (Store.find_user_vote uid (PollView.id pv) d = None →
              PollView.userVote pv = Some oid)).
Proof.
  intros Hfk Hok d d'.
  destruct (submitVote_resolved cuid oid session w Hok) as (uid & Ha & Hne & Ho & Hu & Hv).
  assert (Hd' : d' = Store.mk (Store.users d) (Store.polls d) (Store.options d)
                       (Store.votes d ++ [Vote.mk (cuid (Store.next d)) oid uid])
                       (S (Store.next d))).
  { subst d'. by rewrite (submitVote_first cuid oid uid session w Ha Hne Ho Hu Hv). }
  assert (Hcount : Store.count_votes oid d' = Store.count_votes oid d + 1).
  { rewrite Hd'. unfold Store.count_votes; simpl.
    rewrite filter_app, length_app, filter_cons, filter_nil; simpl.
    rewrite decide_True by done. simpl. lia. }
  assert (Hvote : ∀ poll o, o ∈ Store.options d → Option_.pollId o = Poll.id poll →
            Option_.id o = oid → Store.find_user_vote uid (Poll.id poll) d = None →
            user_vote session d' (Poll.id poll) = Some oid).
  { intros poll o Hin Hp Hid Hnone. unfold user_vote. rewrite Ha.
    assert (Store.find_user_vote uid (Poll.id poll) d'
            = Some (Vote.mk (cuid (Store.next d)) oid uid)) as ->.
    { unfold Store.find_user_vote in *. rewrite Hd'; simpl.
      assert (∀ v, Store.vote_in_poll (Poll.id poll) (Store.mk (Store.users d)
                     (Store.polls d) (Store.options d)
                     (Store.votes d ++ [Vote.mk (cuid (Store.next d)) oid uid])
                     (S (Store.next d))) v = Store.vote_in_poll (Poll.id poll) d v)
        as Hsame by done.
      rewrite (find_pointwise _ _ _ (fun v => f_equal (andb _) (Hsame v))).
      rewrite (find_snoc _ _ _ Hnone); simpl. rewrite String.eqb_refl; simpl.
      assert (Store.vote_in_poll (Poll.id poll) d (Vote.mk (cuid (Store.next d)) oid uid)
              = true) as ->; [|done].
      unfold Store.vote_in_poll; simpl. apply existsb_elem. exists o.
      split; [done|]. by rewrite Hid, Hp, !String.eqb_refl. }
    simpl. apply truthy_true in Hne. rewrite truthy_Some in Hne. by rewrite Hne. }
  exists uid. split; [done|]. split; [|split; [|split]].
  - unfold pollsWithUserVote. rewrite !map_map. by rewrite Hd'.
  - apply existsb_elem in Ho as (o & Hin & Hid). apply String.eqb_eq in Hid.
    pose proof (Hfk o Hin) as Hp. apply existsb_elem in Hp as (poll & Hpin & Hpid).
    apply String.eqb_eq in Hpid.
    exists (poll_view session d' poll),
           (OptionView.mk (Option_.id o) (Option_.text o) (Option_.pollId o)
              (Store.count_votes (Option_.id o) d')).
    split; [|split; [|done]].
    + apply pollsWithUserVote_elem. exists poll. split; [|done]. by rewrite Hd'.
    + simpl. apply options_with_count_elem. exists o. split; [by rewrite Hd' | done].
  - intros pv e Hpv He Hid.
    apply pollsWithUserVote_elem in Hpv as (poll & _ & ->). simpl in He.
    apply options_with_count_elem in He as (o & _ & _ & ->). simpl in *. by rewrite Hid.
  - intros pv e Hpv He Hid.
    apply pollsWithUserVote_elem in Hpv as (poll & _ & ->). simpl in He.
    apply options_with_count_elem in He as (o & Hin & Hp & ->). simpl in *.
    split; [by rewrite Hid|].
    intros Hnone. apply (Hvote poll o); try done. by rewrite Hd' in Hin.
Qed.

(** C8. After Alice's vote for Go and then for Rust, both successful, the
    read for Alice counts one vote more for Rust than before but still
    reports Go as her vote: the store holds two votes of hers on the poll
    and [findFirst] returns the earlier. *)
Theorem read_after_second_vote :
  let first := submitVote sample_cuid "c" alice scenario in
  let second := submitVote sample_cuid "d" alice first.2 in
  let read (w : World) :=
    map (fun pv => (PollView.userVote pv,
                    map (fun e => (OptionView.id e, OptionView.votes e))
                        (PollView.options pv)))
        (pollsWithUserVote alice (db w)) in
  first.1 = Resolved () ∧ second.1 = Resolved () ∧
  read scenario = [(None, [("c", 0); ("d", 0)])] ∧
  read first.2 = [(Some "c", [("c", 1); ("d", 0)])] ∧
  read second.2 = [(Some "c", [("c", 1); ("d", 1)])].
Proof. vm_compute. repeat split. Qed.

(** ** From the page to the card *)

Lemma mount_idle (pv : PollView.t) (loggedIn : bool) :
  pending (mount pv loggedIn) = [] ∧ submitted (mount pv loggedIn) = [].
Proof.
  unfold mount. destruct (hydrate pv []) as [p h].
  match goal with |- context [render ?x] => by destruct (render_pending x) as (-> & -> & _) end.
Qed.

(** The options that the page lists are stored options. *)
Lemma listed_option_id (cuid : nat -> string) (history : list Request)
    (session : option Session.t) (pv : PollView.t) (e : OptionView.t) :
  (∀ n, cuid n ≠ "") →
  pv ∈ pollsWithUserVote session (db (run cuid history boot)) →
  e ∈ PollView.options pv →
  OptionView.id e ≠ "".
Proof.
  intros Hcuid Hpv He.
  apply pollsWithUserVote_elem in Hpv as (poll & _ & ->). simpl in He.
  apply options_with_count_elem in He as (o & Hin & _ & ->). simpl.
  by apply (run_option_ids cuid history o Hcuid).
Qed.

(** C5. On the card of any poll that the page lists, once a press on the
    button of one of its options has been accepted and while its call is
    pending, a second press, on the same button or on another, changes
    nothing: the card, with its counts, its user's vote and the calls made
    to submitVote, stays what it was, in both revisions of the component and
    whatever renders and refreshes happened since the first press. One call
    has been issued and none follows. *)
Theorem second_submit_is_noop (cuid : nat -> string) (history : list Request)
    (session : option Session.t) (pv : PollView.t) (e : OptionView.t) (loggedIn : bool)
    (disabled : Card -> bool) (o' : string) (evs : list Background) :
  (∀ n, cuid n ≠ "") →
  pv ∈ pollsWithUserVote session (db (run cuid history boot)) →
  e ∈ PollView.options pv →
  disabled = disabled_1 ∨ disabled = disabled_2 →
  let c := mount pv loggedIn in
  disabled c = false →
  let c1 := fold_left background evs (click disabled (OptionView.id e) c) in
  click disabled o' c1 = c1 ∧
  submitted c1 = [OptionView.id e] ∧
  pending c1 = [OptionView.id e].
Proof.
  intros Hcuid Hpv He Hd c Hen c1.
  pose proof (listed_option_id cuid history session pv e Hcuid Hpv He) as Hne.
  destruct (mount_idle pv loggedIn) as [Hp Hs].
  destruct (second_press_ignored disabled c (OptionView.id e) o' evs Hd Hen Hne)
    as (H1 & H2 & H3).
  fold c1 in H1, H2, H3. fold c in Hp, Hs. rewrite Hs in H2. rewrite Hp in H3.
  done.
Qed.

Lemma second_submit_is_noop_witness :
  let c := mount (poll_view alice (db scenario) (Poll.mk "b" "Best language?" 1 "a")) true in
  let c1 := fold_left background [Rerender] (click disabled_1 "c" c) in
  click disabled_1 "d" c1 = c1 ∧ submitted c1 = ["c"] ∧ pending c1 = ["c"].
Proof.
  apply (second_submit_is_noop sample_cuid
           [SignUp (Some "Alice") (Some "alice@example.com");
            CreatePoll [("question", "Best language?"); ("option", "Go");
                        ("option", "Rust")] alice 1]
           alice (poll_view alice (db scenario) (Poll.mk "b" "Best language?" 1 "a"))
           (OptionView.mk "c" "Go" "b" 0) true disabled_1 "d" [Rerender]).
  - apply sample_cuid_nonempty.
  - vm_compute. apply list_elem_of_here.
  - vm_compute. apply list_elem_of_here.
  - by left.
  - reflexivity.
Defined.

(** ** Row ids and the integrity of reachable stores *)

Lemma marks_length (n : nat) : String.length (marks n) = n.
Proof. induction n as [|n IH]; simpl; [done | by rewrite IH]. Qed.

Lemma unary_cuid_inj (m n : nat) : unary_cuid m = unary_cuid n → m = n.
Proof.
  unfold unary_cuid. intros [= H]. apply (f_equal String.length) in H.
  by rewrite !marks_length in H.
Qed.

Lemma unary_cuid_nonempty (n : nat) : unary_cuid n ≠ "".
Proof. discriminate. Qed.

Lemma new_options_ids (cuid : nat -> string) (pid : string) (texts : list string) (n : nat) :
  map Option_.id (Store.new_options cuid pid n texts) = map cuid (seq n (length texts)) ∧
  map Option_.text (Store.new_options cuid pid n texts) = texts.
Proof.
  revert n. induction texts as [|x rest IH]; intros n; simpl; [done|].
  destruct (IH (S n)) as [-> ->]. done.
Qed.

Lemma has_email_omap (a : string) (d : Store.t) :
  Store.has_email (Some a) d = false → a ∉ omap User.email (Store.users d).
Proof.
  unfold Store.has_email. intros H Hin.
  apply list_elem_of_omap in Hin as (u & Hu & He).
  assert (existsb (fun u => match User.email u with
                            | Some b => String.eqb a b
                            | None => false
                            end) (Store.users d) = true) as Ht; [|congruence].
  apply existsb_exists. exists u. split; [by apply list_elem_of_In|].
  rewrite He. apply String.eqb_refl.
Qed.

Lemma user_create_well_formed (cuid : nat -> string) (name email : option string)
    (d : Store.t) :
  well_formed cuid d → well_formed cuid (Store.user_create cuid name email d).2.
Proof.
  intros (Hc & Hi & He). unfold Store.user_create.
  destruct (Store.has_email email d) eqn:Hem; simpl; [done|].
  split; [|split].
  - eapply evolves_consistent; [apply evolves_user | done].
  - unfold ids_issued, all_ids in *.
    cbn [Store.users Store.polls Store.options Store.votes Store.next].
    rewrite seq_S, !map_app. cbn [map User.id Nat.add]. rewrite <- Hi. solve_Permutation.
  - unfold emails_unique in *; simpl. rewrite omap_app. apply NoDup_app.
    split; [done|]. split.
    + intros a Ha Hin. destruct email as [b|]; simpl in Hin; [|by apply elem_of_nil in Hin].
      apply list_elem_of_singleton in Hin as ->. by apply has_email_omap in Hem.
    + destruct email; simpl; [apply NoDup_singleton | apply NoDup_nil_2].
Qed.

Lemma poll_create_well_formed (cuid : nat -> string) (q aid : string)
    (texts : list string) (now : Z) (d : Store.t) :
  well_formed cuid d → well_formed cuid (Store.poll_create cuid q aid texts now d).2.
Proof.
  intros (Hc & Hi & He).
  pose proof (poll_create_evolves cuid q aid texts now d) as Hev.
  split; [by eapply evolves_consistent|].
  unfold Store.poll_create in *. destruct (Store.has_user aid d); simpl; [|done].
  split; [|done].
  unfold ids_issued, all_ids in *.
  cbn [Store.users Store.polls Store.options Store.votes Store.next Poll.id].
  destruct (new_options_ids cuid (cuid (Store.next d)) texts (S (Store.next d))) as [Hn _].
  rewrite !map_app, Hn.
  match goal with |- _ ≡ₚ map cuid (seq 0 ?n) =>
    replace n with (Store.next d + S (length texts))%nat by lia end.
  rewrite seq_app, map_app. cbn [seq map Poll.id Nat.add]. rewrite <- Hi.
  solve_Permutation.
Qed.

Lemma vote_create_well_formed (cuid : nat -> string) (oid uid : string) (d : Store.t) :
  well_formed cuid d → well_formed cuid (Store.vote_create cuid oid uid d).2.
Proof.
  intros (Hc & Hi & He).
  pose proof (vote_create_evolves cuid oid uid d) as Hev.
  split; [by eapply evolves_consistent|].
  unfold Store.vote_create in *. destruct (Store.has_vote oid uid d); simpl; [done|].
  destruct (negb (Store.has_option oid d) || negb (Store.has_user uid d)); simpl; [done|].
  split; [|done].
  unfold ids_issued, all_ids in *.
  cbn [Store.users Store.polls Store.options Store.votes Store.next].
  rewrite seq_S, !map_app. cbn [map Vote.id Nat.add]. rewrite <- Hi. solve_Permutation.
Qed.

(** What an action leaves in the store is what its one store call left. *)
Lemma submitVote_store (cuid : nat -> string) (oid : string) (session : option Session.t)
    (w : World) :
  db (submitVote cuid oid session w).2 = db w ∨
  ∃ uid, authenticated session = Some uid ∧
         db (submitVote cuid oid session w).2 = (Store.vote_create cuid oid uid (db w)).2.
Proof.
  unfold submitVote. destruct (authenticated session) as [uid|]; [|by left].
  destruct (truthy (Some oid)); simpl; [|by left].
  right. exists uid. split; [done|].
  destruct (Store.vote_create cuid oid uid (db w)) as [[v|e] d]; simpl; [done|].
  by destruct (submitVote_catch e).
Qed.

Lemma createPoll_store (cuid : nat -> string) (formData : FormData)
    (session : option Session.t) (now : Z) (w : World) :
  db (createPoll cuid formData session now w).2 = db w ∨
  ∃ q uid texts,
    db (createPoll cuid formData session now w).2
    = (Store.poll_create cuid q uid texts now (db w)).2.
Proof.
  unfold createPoll. destruct (authenticated session) as [uid|]; [|by left].
  match goal with |- context [if ?b then _ else _] => destruct b end; [by left|].
  right.
  match goal with |- context [Store.poll_create ?c ?q ?a ?t ?n ?d] =>
    exists q, a, t; destruct (Store.poll_create c q a t n d) as [[r|e] d'] end; done.
Qed.

Lemma step_well_formed (cuid : nat -> string) (w : World) (r : Request) :
  well_formed cuid (db w) → well_formed cuid (db (step cuid w r)).
Proof.
  intros Hw. destruct r as [name email | formData session now | oid session]; simpl.
  - by apply user_create_well_formed.
  - destruct (createPoll_store cuid formData session now w) as [-> | (q & uid & texts & ->)];
      [done | by apply poll_create_well_formed].
  - destruct (submitVote_store cuid oid session w) as [-> | (uid & _ & ->)];
      [done | by apply vote_create_well_formed].
Qed.

Lemma empty_well_formed (cuid : nat -> string) : well_formed cuid Store.empty.
Proof.
  split; [apply empty_consistent|]. split; [by unfold ids_issued|].
  unfold emails_unique; simpl. apply NoDup_nil_2.
Qed.

Lemma run_well_formed (cuid : nat -> string) (rs : list Request) (w : World) :
  well_formed cuid (db w) → well_formed cuid (db (run cuid rs w)).
Proof.
  revert w. induction rs as [|r rs IH]; intros w Hw; simpl; [done|].
  by apply IH, step_well_formed.
Qed.

Lemma run_app (cuid : nat -> string) (rs rs' : list Request) (w : World) :
  run cuid (rs ++ rs') w = run cuid rs' (run cuid rs w).
Proof. apply fold_left_app. Qed.

(** In a well-formed store the row ids are pairwise distinct, and each is an
    id that [cuid] generated. *)
Lemma well_formed_ids (cuid : nat -> string) (d : Store.t) :
  (∀ m n, cuid m = cuid n → m = n) →
  well_formed cuid d →
  NoDup (all_ids d) ∧
  ∀ x, x ∈ all_ids d ↔ ∃ k, (k < Store.next d)%nat ∧ x = cuid k.
Proof.
  intros Hinj (_ & Hi & _). unfold ids_issued in Hi. split.
  - rewrite Hi. change (NoDup (cuid <$> seq 0 (Store.next d))).
    apply NoDup_fmap_2_strong; [|apply NoDup_seq].
    intros m n _ _. apply Hinj.
  - intros x. rewrite Hi, list_elem_of_In, in_map_iff. split.
    + intros (k & <- & Hk). apply in_seq in Hk. exists k. split; [lia | done].
    + intros (k & Hk & ->). exists k. split; [done|]. apply in_seq. lia.
Qed.

Lemma NoDup_map_inj {A B} (f : A -> B) (l : list A) (x y : A) :
  NoDup (map f l) → x ∈ l → y ∈ l → f x = f y → x = y.
Proof.
  induction l as [|a l IH]; simpl; intros Hnd Hx Hy Hf; [by apply elem_of_nil in Hx|].
  apply NoDup_cons in Hnd as [Ha Hnd].
  assert (∀ z, z ∈ l → f z ≠ f a) as Hfresh.
  { intros z Hz Heq. apply Ha. rewrite <- Heq. apply list_elem_of_In, in_map.
    by apply list_elem_of_In. }
  apply elem_of_cons in Hx as [-> | Hx]; apply elem_of_cons in Hy as [-> | Hy]; try done.
  - symmetry in Hf. by apply Hfresh in Hf.
  - by apply Hfresh in Hf.
  - by apply IH.
Qed.

(** X1. With a generator that never repeats, the rows of every store the
    server can reach have pairwise distinct ids, across the four tables; in
    particular an option id names one option row, hence one poll. *)
Theorem row_ids_distinct (cuid : nat -> string) (history : list Request) :
  (∀ m n, cuid m = cuid n → m = n) →
  let d := db (run cuid history boot) in
  NoDup (all_ids d) ∧
  ∀ o o', o ∈ Store.options d → o' ∈ Store.options d →
          Option_.id o = Option_.id o' → o = o'.
Proof.
  intros Hinj d.
  destruct (well_formed_ids cuid d Hinj) as [Hnd _].
  { apply run_well_formed, empty_well_formed. }
  split; [done|]. intros o o' Ho Ho' Hid.
  unfold all_ids in Hnd.
  apply NoDup_app in Hnd as (_ & _ & Hnd). apply NoDup_app in Hnd as (_ & _ & Hnd).
  apply NoDup_app in Hnd as (Hnd & _ & _).
  by apply (NoDup_map_inj Option_.id (Store.options d)).
Qed.

Lemma row_ids_distinct_witness :
  NoDup (all_ids (db (run unary_cuid
                        [SignUp (Some "Alice") None;
                         CreatePoll [("question", "Q"); ("option", "x"); ("option", "y")]
                           (session_of "c") 1;
                         SubmitVote "cii" (session_of "c")] boot))).
Proof.
  apply (row_ids_distinct unary_cuid
           [SignUp (Some "Alice") None;
            CreatePoll [("question", "Q"); ("option", "x"); ("option", "y")]
              (session_of "c") 1;
            SubmitVote "cii" (session_of "c")]).
  exact unary_cuid_inj.
Defined.

Lemma reachable_well_formed (cuid : nat -> string) (history : list Request) :
  well_formed cuid (db (run cuid history boot)).
Proof. apply run_well_formed, empty_well_formed. Qed.

(** X2. In every store the server can reach, every vote references a stored
    option and a stored user, every option references a stored poll, and no
    two users share an email. *)
Theorem reachable_integrity (cuid : nat -> string) (history : list Request) :
  let d := db (run cuid history boot) in
  votes_fk d ∧ options_fk d ∧ emails_unique d.
Proof.
  intros d. by destruct (reachable_well_formed cuid history) as ((_ & Hv & Ho) & _ & He).
Qed.

Lemma evolves_prefix (d d' : Store.t) :
  evolves d d' →
  Store.users d `prefix_of` Store.users d' ∧ Store.polls d `prefix_of` Store.polls d' ∧
  Store.options d `prefix_of` Store.options d' ∧ Store.votes d `prefix_of` Store.votes d'.
Proof.
  intros []; simpl; repeat split; try done; by apply prefix_app_r.
Qed.

(** X3. No request removes or rewrites a row: after any requests each table
    starts with the rows it had, in the same order, and no option has fewer
    votes than before. *)
Theorem rows_never_removed (cuid : nat -> string) (rs : list Request) (w : World) :
  let d := db w in
  let d' := db (run cuid rs w) in
  Store.users d `prefix_of` Store.users d' ∧ Store.polls d `prefix_of` Store.polls d' ∧
  Store.options d `prefix_of` Store.options d' ∧ Store.votes d `prefix_of` Store.votes d' ∧
  ∀ oid, Store.count_votes oid d ≤ Store.count_votes oid d'.
Proof.
  intros d d'.
  assert (Store.users d `prefix_of` Store.users d' ∧
          Store.polls d `prefix_of` Store.polls d' ∧
          Store.options d `prefix_of` Store.options d' ∧
          Store.votes d `prefix_of` Store.votes d') as (Hu & Hp & Ho & Hv).
  { subst d d'.
    apply (run_invariant cuid (fun x =>
             Store.users (db w) `prefix_of` Store.users x ∧
             Store.polls (db w) `prefix_of` Store.polls x ∧
             Store.options (db w) `prefix_of` Store.options x ∧
             Store.votes (db w) `prefix_of` Store.votes x)); [|done].
    intros x y Hev (H1 & H2 & H3 & H4).
    destruct (evolves_prefix x y Hev) as (G1 & G2 & G3 & G4).
    repeat split; by etrans. }
  repeat split; try done.
  intros oid. destruct Hv as [k Hk]. unfold Store.count_votes. rewrite Hk, filter_app, length_app.
  lia.
Qed.

(** ** The outcomes of the actions *)

(** X4. [createPoll] by a signed-in, stored user with a non-empty question
    and at least two options that are not blank returns no error and writes
    exactly one poll, with that question, author and time, and one option
    for each option text that is not blank, in the order of the form, each
    attached to the new poll; blank texts are dropped, users and votes are
    untouched, and the path "/" is revalidated. *)
Theorem createPoll_creates (cuid : nat -> string) (formData : FormData)
    (session : option Session.t) (uid q : string) (now : Z) (w : World) :
  authenticated session = Some uid →
  Store.has_user uid (db w) = true →
  get "question" formData = Some q →
  q ≠ "" →
  let texts := filter (fun text => trim text ≠ "") (getAll "option" formData) in
  (2 ≤ length texts)%nat →
  let r := createPoll cuid formData session now w in
  let poll := Poll.mk (cuid (Store.next (db w))) q now uid in
  r.1 = Resolved None ∧
  Store.polls (db r.2) = Store.polls (db w) ++ [poll] ∧
  (∃ os, Store.options (db r.2) = Store.options (db w) ++ os ∧
         map Option_.text os = texts ∧
         ∀ o, o ∈ os → Option_.pollId o = Poll.id poll) ∧
  Store.users (db r.2) = Store.users (db w) ∧
  Store.votes (db r.2) = Store.votes (db w) ∧
  log r.2 = log w ++ [CallPollCreate q uid texts; RevalidatePath "/"].
Proof.
  intros Ha Hu Hq Hne texts Hlen r poll.
  assert (r = (Resolved None,
               mkWorld (Store.mk (Store.users (db w)) (Store.polls (db w) ++ [poll])
                          (Store.options (db w)
                           ++ Store.new_options cuid (Poll.id poll) (S (Store.next (db w))) texts)
                          (Store.votes (db w)) (S (Store.next (db w)) + length texts))
                       (log w ++ [CallPollCreate q uid texts; RevalidatePath "/"]))) as ->.
  { subst r. unfold createPoll, Store.poll_create. rewrite Ha, Hq.
    apply truthy_true in Hne. rewrite Hne. fold texts.
    assert ((length texts <? 2)%nat = false) as -> by (apply Nat.ltb_ge; lia).
    simpl. by rewrite Hu. }
  simpl. repeat split; try done.
  exists (Store.new_options cuid (cuid (Store.next (db w))) (S (Store.next (db w))) texts).
  split; [done|]. split; [apply new_options_ids | apply new_options_pollId].
Qed.

Lemma createPoll_creates_witness :
  let r := createPoll sample_cuid
             [("question", "Tabs?"); ("option", "yes"); ("option", "  "); ("option", "no")]
             alice 3 scenario in
  r.1 = Resolved None ∧
  map Option_.text (Store.options (db r.2)) = ["Go"; "Rust"; "yes"; "no"].
Proof.
  destruct (createPoll_creates sample_cuid
              [("question", "Tabs?"); ("option", "yes"); ("option", "  "); ("option", "no")]
              alice "a" "Tabs?" 3 scenario) as (H1 & _ & (os & H2 & H3 & _) & _).
  - reflexivity.
  - reflexivity.
  - reflexivity.
  - discriminate.
  - vm_compute. lia.
  - split; [exact H1|]. rewrite H2, map_app, H3. reflexivity.
Defined.


(** X6. Whatever its arguments, [submitVote] either succeeds, storing one
    vote and revalidating "/", or throws one of its four messages; when it
    throws, the store is left as it was and nothing is revalidated. The
    store error is written to the console only for the fallback message. *)
Theorem submitVote_outcomes (cuid : nat -> string) (optionId : string)
    (session : option Session.t) (w : World) :
  let r := submitVote cuid optionId session w in
  (r = (Rejected "Not authenticated. Please sign in to vote.", w)) ∨
  (r = (Rejected "Invalid option ID provided.", w)) ∨
  (∃ uid, r = (Rejected "You have already voted on this poll.",
               mkWorld (db w) (log w ++ [CallVoteCreate optionId uid]))) ∨
  (∃ uid, r = (Rejected "Could not submit vote. Please try again.",
               mkWorld (db w) (log w ++ [CallVoteCreate optionId uid; ConsoleError]))) ∨
  (∃ uid v, r.1 = Resolved () ∧
            Store.votes (db r.2) = Store.votes (db w) ++ [v] ∧
            Vote.optionId v = optionId ∧ Vote.userId v = uid ∧
            authenticated session = Some uid ∧
            log r.2 = log w ++ [CallVoteCreate optionId uid; RevalidatePath "/"]).
Proof.
  intros r. subst r. unfold submitVote, Store.vote_create.
  destruct (authenticated session) as [uid|]; [|by left].
  destruct (truthy (Some optionId)); simpl; [|right; by left].
  right. right.
  destruct (Store.has_vote optionId uid (db w)); simpl; [left; by exists uid|].
  right.
  destruct (negb (Store.has_option optionId (db w)) || negb (Store.has_user uid (db w)));
    simpl; [left; by exists uid|].
  right. exists uid. by eexists.
Qed.

(** ** The read model *)

#[local] Instance newest_first_total : Total newest_first.
Proof. intros p q. unfold newest_first. lia. Qed.

#[local] Instance newest_first_trans : Transitive newest_first.
Proof. intros p q r. unfold newest_first. lia. Qed.

(** X7. The page lists every stored poll exactly once, and no poll comes
    before a poll created later. *)
Theorem read_order (session : option Session.t) (d : Store.t) :
  map PollView.id (pollsWithUserVote session d) ≡ₚ map Poll.id (Store.polls d) ∧
  StronglySorted (fun a b => PollView.createdAt b ≤ PollView.createdAt a)
                 (pollsWithUserVote session d).
Proof.
  unfold pollsWithUserVote. split.
  - rewrite map_map; simpl.
    change (Poll.id <$> merge_sort newest_first (Store.polls d) ≡ₚ Poll.id <$> Store.polls d).
    by rewrite merge_sort_Permutation.
  - pose proof (StronglySorted_merge_sort newest_first (Store.polls d)) as Hs.
    induction Hs as [|p l Hs IH Hall]; simpl; constructor; [done|].
    apply Forall_forall. intros pv Hpv.
    apply list_elem_of_In, in_map_iff in Hpv as (q & <- & Hq).
    simpl. rewrite Forall_forall in Hall. apply Hall. by apply list_elem_of_In.
Qed.

Lemma find_is_Some {A} (f : A -> bool) (l : list A) (x : A) :
  x ∈ l → f x = true → ∃ y, List.find f l = Some y.
Proof.
  induction l as [|a l IH]; intros Hx Hf; [by apply elem_of_nil in Hx|]. simpl.
  destruct (f a) eqn:Ha; [by exists a|].
  apply elem_of_cons in Hx as [-> | Hx]; [congruence | by apply IH].
Qed.

(** X8. What the page reports as the reader's vote on a poll is the option
    id of a vote that the reader really has, and an option listed on that
    poll's card with at least one vote; a reader who is not signed in is
    reported no vote on any poll. *)
Theorem userVote_is_listed (session : option Session.t) (d : Store.t) (pv : PollView.t) :
  pv ∈ pollsWithUserVote session d →
  (authenticated session = None → PollView.userVote pv = None) ∧
  ∀ o, PollView.userVote pv = Some o →
       o ≠ "" ∧
       (∃ uid, authenticated session = Some uid ∧ Store.has_vote o uid d = true) ∧
       ∃ e, e ∈ PollView.options pv ∧ OptionView.id e = o ∧ 1 ≤ OptionView.votes e.
Proof.
  intros Hpv. apply pollsWithUserVote_elem in Hpv as (poll & _ & ->). simpl.
  unfold user_vote. split; [by intros ->|].
  intros o. destruct (authenticated session) as [uid|]; [|done].
  destruct (Store.find_user_vote uid (Poll.id poll) d) as [v|] eqn:Hf; [|done].
  destruct (truthy (Some (Vote.optionId v))) eqn:Ht; [|done].
  intros [= <-]. apply truthy_true in Ht. split; [done|].
  apply find_some in Hf as (Hin & (Hu%String.eqb_eq & Hp)%andb_true_iff).
  apply list_elem_of_In in Hin.
  assert (Store.has_vote (Vote.optionId v) uid d = true) as Hv.
  { apply existsb_elem. exists v. split; [done|]. by apply same_pair_true. }
  split; [by exists uid|].
  apply existsb_elem in Hp as (opt & Hopt & (Hid%String.eqb_eq & Hpid%String.eqb_eq)%andb_true_iff).
  exists (OptionView.mk (Option_.id opt) (Option_.text opt) (Option_.pollId opt)
            (Store.count_votes (Option_.id opt) d)).
  split; [apply options_with_count_elem; by exists opt|]. split; [done|]. simpl.
  unfold Store.count_votes.
  assert (v ∈ filter (fun x => Vote.optionId x = Option_.id opt) (Store.votes d)) as Hvin
    by (apply list_elem_of_filter; by split).
  destruct (filter (fun x => Vote.optionId x = Option_.id opt) (Store.votes d));
    [by apply elem_of_nil in Hvin | simpl; lia].
Qed.

Lemma userVote_is_listed_witness :
  "c" ≠ "" ∧
  (∃ uid, authenticated alice = Some uid ∧
          Store.has_vote "c" uid (db (submitVote sample_cuid "c" alice scenario).2) = true) ∧
  ∃ e, e ∈ PollView.options
             (poll_view alice (db (submitVote sample_cuid "c" alice scenario).2)
                (Poll.mk "b" "Best language?" 1 "a")) ∧
       OptionView.id e = "c" ∧ 1 ≤ OptionView.votes e.
Proof.
  destruct (userVote_is_listed alice (db (submitVote sample_cuid "c" alice scenario).2)
              (poll_view alice (db (submitVote sample_cuid "c" alice scenario).2)
                 (Poll.mk "b" "Best language?" 1 "a"))) as [_ H].
  - vm_compute. apply list_elem_of_here.
  - apply (H "c"). reflexivity.
Defined.

(** X9. In every store the server can reach, every stored option is shown
    on the card of the poll it belongs to, with its text and with the number
    of votes that reference it. *)
Theorem every_option_is_listed (cuid : nat -> string) (history : list Request)
    (session : option Session.t) (o : Option_.t) :
  let d := db (run cuid history boot) in
  o ∈ Store.options d →
  ∃ pv, pv ∈ pollsWithUserVote session d ∧ PollView.id pv = Option_.pollId o ∧
        OptionView.mk (Option_.id o) (Option_.text o) (Option_.pollId o)
          (Z.of_nat (length (filter (fun v => Vote.optionId v = Option_.id o) (Store.votes d))))
        ∈ PollView.options pv.
Proof.
  intros d Ho.
  destruct (reachable_well_formed cuid history) as ((_ & _ & Hfk) & _).
  pose proof (Hfk o Ho) as Hp. apply existsb_elem in Hp as (poll & Hpin & Hid%String.eqb_eq).
  exists (poll_view session d poll). split; [apply pollsWithUserVote_elem; by exists poll|].
  split; [done|]. simpl. apply options_with_count_elem. by exists o.
Qed.

Lemma every_option_is_listed_witness :
  ∃ pv, pv ∈ pollsWithUserVote alice (db scenario) ∧ PollView.id pv = "b" ∧
        OptionView.mk "d" "Rust" "b" 0 ∈ PollView.options pv.
Proof.
  apply (every_option_is_listed sample_cuid
           [SignUp (Some "Alice") (Some "alice@example.com");
            CreatePoll [("question", "Best language?"); ("option", "Go");
                        ("option", "Rust")] alice 1]
           alice (Option_.mk "d" "Rust" "b")).
  vm_compute. apply list_elem_of_further, list_elem_of_here.
Defined.

(** ** From the page to the server and back *)

Lemma mount_eq (pv : PollView.t) (loggedIn : bool) :
  mount pv loggedIn =
    mkCard (PollView.options pv) (hydrate pv []).1 loggedIn [] (hydrate pv []).1 [].
Proof. reflexivity. Qed.

(** Reading freshly allocated option objects gives back the options. *)
Lemma heap_read {B} (g : OptionView.t -> B) (h l : Heap) :
  omap (fun i => g <$> (h ++ l) !! i) (seq (length h) (length l)) = map g l.
Proof.
  revert h. induction l as [|x l IH]; intros h; [done|].
  cbn [length seq omap list_omap map].
  rewrite list_lookup_middle by done. cbn [fmap option_fmap option_map].
  f_equal. specialize (IH (h ++ [x])).
  rewrite length_app, <- app_assoc in IH. cbn [length app] in IH.
  by rewrite Nat.add_1_r in IH.
Qed.

Lemma shown_votes_mount (pv : PollView.t) (loggedIn : bool) :
  shown_votes (mount pv loggedIn)
  = map (fun e => (OptionView.id e, OptionView.votes e)) (PollView.options pv).
Proof.
  rewrite mount_eq. unfold shown_votes, hydrate.
  cbn [heap optimisticPoll fst PollObj.options length app].
  apply (heap_read (fun o => (OptionView.id o, OptionView.votes o)) [] (PollView.options pv)).
Qed.

Lemma pollCards_elem (session : option Session.t) (d : Store.t) (c : Card) :
  c ∈ pollCards (HomePage session d) ↔
  ∃ pv, pv ∈ pollsWithUserVote session d ∧ c = mount pv (is_logged_in session).
Proof.
  unfold HomePage; simpl. rewrite list_elem_of_In, in_map_iff.
  split; intros (pv & H1 & H2); exists pv; split; try done; by apply list_elem_of_In.
Qed.

Lemma shown_option (pv : PollView.t) (loggedIn : bool) (o : string) (n : Z) :
  (o, n) ∈ shown_votes (mount pv loggedIn) →
  ∃ e, e ∈ PollView.options pv ∧ OptionView.id e = o ∧ OptionView.votes e = n.
Proof.
  rewrite shown_votes_mount, list_elem_of_In, in_map_iff.
  intros (e & [= <- <-] & He). exists e. split; [by apply list_elem_of_In | done].
Qed.

Lemma mount_disabled (pv : PollView.t) (loggedIn : bool) :
  disabled_1 (mount pv loggedIn) = truthy (PollView.userVote pv) ∧
  disabled_2 (mount pv loggedIn) = truthy (PollView.userVote pv) || negb loggedIn.
Proof. done. Qed.

(** The votes of a reachable store are votes for non-empty option ids. *)
Lemma reachable_vote_option (cuid : nat -> string) (history : list Request) (v : Vote.t) :
  (∀ n, cuid n ≠ "") →
  v ∈ Store.votes (db (run cuid history boot)) → Vote.optionId v ≠ "".
Proof.
  intros Hcuid Hv. destruct (reachable_well_formed cuid history) as ((_ & Hfk & _) & _).
  destruct (Hfk v Hv) as [Ho _]. by apply (has_option_nonempty cuid history).
Qed.

(** X10. On the page rendered for a signed-in, stored user from a store the
    server can reach, an enabled vote button tells the truth: if the store
    has not changed since, [submitVote] for the option of that button
    succeeds. *)
Theorem enabled_button_vote_succeeds (cuid : nat -> string) (history : list Request)
    (session : option Session.t) (uid : string) (disabled : Card -> bool)
    (c : Card) (o : string) (n : Z) :
  (∀ k, cuid k ≠ "") →
  authenticated session = Some uid →
  let w := run cuid history boot in
  Store.has_user uid (db w) = true →
  c ∈ pollCards (HomePage session (db w)) →
  (o, n) ∈ shown_votes c →
  disabled = disabled_1 ∨ disabled = disabled_2 →
  disabled c = false →
  (submitVote cuid o session w).1 = Resolved ().
Proof.
  intros Hcuid Ha w Hu Hc Ho Hd Hen.
  apply pollCards_elem in Hc as (pv & Hpv & ->).
  apply shown_option in Ho as (e & He & <- & _).
  pose proof (listed_option_id cuid history session pv e Hcuid Hpv He) as Hne.
  assert (truthy (PollView.userVote pv) = false) as Ht.
  { destruct (mount_disabled pv (is_logged_in session)) as [H1 H2].
    destruct Hd as [-> | ->]; [congruence|].
    rewrite H2 in Hen. by apply orb_false_iff in Hen as [? _]. }
  apply pollsWithUserVote_elem in Hpv as (poll & _ & ->). simpl in He, Ht.
  apply options_with_count_elem in He as (opt & Hopt & Hpid & ->). simpl in *.
  assert (Store.find_user_vote uid (Poll.id poll) (db w) = None) as Hnone.
  { unfold user_vote in Ht. rewrite Ha in Ht.
    destruct (Store.find_user_vote uid (Poll.id poll) (db w)) as [v|] eqn:Hf; [|done].
    exfalso. apply find_some in Hf as (Hin & _). apply list_elem_of_In in Hin.
    pose proof (reachable_vote_option cuid history v Hcuid Hin) as Hv.
    apply truthy_true in Hv. rewrite Hv in Ht. cbv iota in Ht. congruence. }
  assert (Store.has_vote (Option_.id opt) uid (db w) = false) as Hv.
  { destruct (Store.has_vote (Option_.id opt) uid (db w)) eqn:E; [|done]. exfalso.
    apply existsb_elem in E as (v & Hin & (Hvo & Hvu)%same_pair_true).
    unfold Store.find_user_vote in Hnone.
    pose proof (find_none _ _ Hnone v) as Hf. simpl in Hf.
    rewrite <- list_elem_of_In in Hf. specialize (Hf Hin).
    rewrite Hvu, String.eqb_refl in Hf. simpl in Hf.
    assert (Store.vote_in_poll (Poll.id poll) (db w) v = true) as Hp; [|congruence].
    apply existsb_elem. exists opt. split; [done|].
    by rewrite Hvo, Hpid, !String.eqb_refl. }
  rewrite (submitVote_first cuid (Option_.id opt) uid session w Ha Hne); try done.
  apply existsb_elem. exists opt. split; [done | apply String.eqb_refl].
Qed.

Lemma enabled_button_vote_succeeds_witness :
  (submitVote sample_cuid "d" alice scenario).1 = Resolved ().
Proof.
  apply (enabled_button_vote_succeeds sample_cuid
           [SignUp (Some "Alice") (Some "alice@example.com");
            CreatePoll [("question", "Best language?"); ("option", "Go");
                        ("option", "Rust")] alice 1]
           alice "a" disabled_2
           (mount (poll_view alice (db scenario) (Poll.mk "b" "Best language?" 1 "a")) true)
           "d" 0).
  - apply sample_cuid_nonempty.
  - reflexivity.
  - reflexivity.
  - vm_compute. apply list_elem_of_here.
  - vm_compute. apply list_elem_of_further, list_elem_of_here.
  - by right.
  - reflexivity.
Defined.

(** X11. After a successful vote, on the page rendered again for the same
    user, every button of the card that shows the option voted for is
    disabled, in both revisions of the card. *)
Theorem voted_poll_is_disabled (cuid : nat -> string) (history : list Request)
    (session : option Session.t) (oid : string) (c : Card) (n : Z) :
  (∀ k, cuid k ≠ "") →
  let w := run cuid history boot in
  (submitVote cuid oid session w).1 = Resolved () →
  c ∈ pollCards (HomePage session (db (submitVote cuid oid session w).2)) →
  (oid, n) ∈ shown_votes c →
  disabled_1 c = true ∧ disabled_2 c = true.
Proof.
  intros Hcuid w Hok Hc Ho.
  destruct (submitVote_resolved cuid oid session w Hok) as (uid & Ha & Hne & Hopt & Hu & Hv).
  assert (Hw' : (submitVote cuid oid session w).2
                = run cuid (history ++ [SubmitVote oid session]) boot)
    by (by rewrite run_app).
  rewrite Hw' in Hc.
  assert (Hnew : ∃ v, v ∈ Store.votes (db (run cuid (history ++ [SubmitVote oid session]) boot))
                      ∧ Vote.optionId v = oid ∧ Vote.userId v = uid).
  { rewrite <- Hw', (submitVote_first cuid oid uid session w Ha Hne Hopt Hu Hv); simpl.
    exists (Vote.mk (cuid (Store.next (db w))) oid uid). split; [|done].
    apply elem_of_app. right. apply list_elem_of_here. }
  destruct Hnew as (v0 & Hv0 & Hv0o & Hv0u).
  apply pollCards_elem in Hc as (pv & Hpv & ->).
  apply shown_option in Ho as (e & He & Hid & _).
  apply pollsWithUserVote_elem in Hpv as (poll & _ & ->). simpl in He.
  apply options_with_count_elem in He as (opt & Hoin & Hpid & ->). simpl in Hid.
  destruct (mount_disabled
              (poll_view session (db (run cuid (history ++ [SubmitVote oid session]) boot)) poll)
              (is_logged_in session)) as [-> ->].
  assert (truthy (user_vote session
                    (db (run cuid (history ++ [SubmitVote oid session]) boot)) (Poll.id poll))
          = true) as Ht; [|simpl; by rewrite Ht].
  unfold user_vote. rewrite Ha.
  destruct (find_is_Some
              (fun v => String.eqb (Vote.userId v) uid
                        && Store.vote_in_poll (Poll.id poll)
                             (db (run cuid (history ++ [SubmitVote oid session]) boot)) v)
              (Store.votes (db (run cuid (history ++ [SubmitVote oid session]) boot)))
              v0 Hv0) as (v & Hf).
  { rewrite Hv0u, String.eqb_refl. simpl. apply existsb_elem. exists opt.
    split; [done|]. by rewrite Hv0o, Hid, Hpid, !String.eqb_refl. }
  unfold Store.find_user_vote. rewrite Hf.
  apply find_some in Hf as (Hin & _). apply list_elem_of_In in Hin.
  pose proof (reachable_vote_option cuid _ v Hcuid Hin) as Hvne.
  apply truthy_true in Hvne. by rewrite Hvne.
Qed.

Lemma voted_poll_is_disabled_witness :
  let c := mount (poll_view alice (db (submitVote sample_cuid "c" alice scenario).2)
                    (Poll.mk "b" "Best language?" 1 "a")) true in
  disabled_1 c = true ∧ disabled_2 c = true.
Proof.
  apply (voted_poll_is_disabled sample_cuid
           [SignUp (Some "Alice") (Some "alice@example.com");
            CreatePoll [("question", "Best language?"); ("option", "Go");
                        ("option", "Rust")] alice 1]
           alice "c" _ 1).
  - apply sample_cuid_nonempty.
  - reflexivity.
  - vm_compute. apply list_elem_of_here.
  - vm_compute. apply list_elem_of_here.
Defined.

Lemma unauthenticated_userVote (session : option Session.t) (d : Store.t) (pv : PollView.t) :
  authenticated session = None →
  pv ∈ pollsWithUserVote session d → PollView.userVote pv = None.
Proof.
  intros Ha Hpv. apply pollsWithUserVote_elem in Hpv as (poll & _ & ->). simpl.
  unfold user_vote. by rewrite Ha.
Qed.

(** X12. For a visitor without a session the page shows no poll form. On
    the cards of the second revision every button is disabled and a press
    does nothing; on those of the first revision a press is accepted and
    issues a [submitVote] call, which the server refuses as not
    authenticated. *)
Theorem anonymous_visitor (cuid : nat -> string) (d : Store.t) (w : World) (c : Card)
    (o : string) :
  c ∈ pollCards (HomePage None d) →
  createPollForm (HomePage None d) = false ∧
  click disabled_2 o c = c ∧
  submitted (click disabled_1 o c) = [o] ∧
  submitVote cuid o None w = (Rejected "Not authenticated. Please sign in to vote.", w).
Proof.
  intros Hc. apply pollCards_elem in Hc as (pv & Hpv & ->).
  pose proof (unauthenticated_userVote None d pv eq_refl Hpv) as Hnone.
  destruct (mount_disabled pv (is_logged_in None)) as [H1 H2].
  rewrite Hnone in H1, H2.
  split; [done|]. split; [unfold click; by rewrite H2|]. split; [|done].
  unfold click. rewrite H1. cbn [truthy].
  destruct (handleVote_pending o (mount pv (is_logged_in None))) as (_ & _ & -> & _).
  by destruct (mount_idle pv (is_logged_in None)) as [_ ->].
Qed.

Lemma anonymous_visitor_witness :
  let c := mount (poll_view None (db scenario) (Poll.mk "b" "Best language?" 1 "a")) false in
  createPollForm (HomePage None (db scenario)) = false ∧
  click disabled_2 "c" c = c ∧
  submitted (click disabled_1 "c" c) = ["c"] ∧
  submitVote sample_cuid "c" None scenario
  = (Rejected "Not authenticated. Please sign in to vote.", scenario).
Proof.
  apply (anonymous_visitor sample_cuid (db scenario) scenario).
  vm_compute. apply list_elem_of_here.
Defined.

(** ** What the card shows *)

(** X13. Once the call has settled and the page has been rendered again on
    the server, the card shows exactly the counts and the user's vote of the
    new props, whatever it showed before; and a freshly mounted card shows
    exactly its props. *)
Theorem refreshed_props_replace (c : Card) (pv : PollView.t) (loggedIn : bool) :
  let c' := receive pv (settle c) in
  let counts := map (fun e => (OptionView.id e, OptionView.votes e)) (PollView.options pv) in
  shown_votes c' = counts ∧
  PollObj.userVote (optimisticPoll c') = PollView.userVote pv ∧
  pending c' = [] ∧
  shown_votes (mount pv loggedIn) = counts ∧
  PollObj.userVote (optimisticPoll (mount pv loggedIn)) = PollView.userVote pv.
Proof.
  intros c' counts.
  assert (pending (settle c) = []) as Hp.
  { unfold settle.
    match goal with |- context [render ?x] => by destruct (render_pending x) as (-> & _) end. }
  assert (c' = mkCard (heap (settle c) ++ PollView.options pv)
                 (hydrate pv (heap (settle c))).1 (isLoggedIn (settle c)) []
                 (hydrate pv (heap (settle c))).1 (submitted (settle c))) as ->.
  { subst c'. unfold receive, hydrate, render.
    cbn [pollData pending heap isLoggedIn submitted fst]. rewrite Hp. reflexivity. }
  split; [|split; [done|split; [done|split; [apply shown_votes_mount | done]]]].
  unfold shown_votes, hydrate. cbn [heap optimisticPoll fst PollObj.options].
  apply heap_read.
Qed.

(** [find] over the addresses [a, a+1, ...] returns the first that
    satisfies the test. *)
Lemma find_seq_first (P : nat -> bool) (i n a : nat) :
  (a ≤ i)%nat → (i < a + n)%nat →
  P i = true → (∀ j, (a ≤ j)%nat → (j < i)%nat → P j = false) →
  List.find P (seq a n) = Some i.
Proof.
  revert a. induction n as [|n IH]; intros a Ha Hi Hp Hbefore; [lia|]. simpl.
  destruct (decide (a = i)) as [->|Hne]; [by rewrite Hp|].
  rewrite (Hbefore a) by lia. apply IH; try lia; [done|].
  intros j Hj. apply Hbefore. lia.
Qed.

Lemma find_option_first (h : Heap) (i : nat) (e : OptionView.t) :
  h !! i = Some e →
  (∀ j e', (j < i)%nat → h !! j = Some e' → OptionView.id e' ≠ OptionView.id e) →
  find_option h (seq 0 (length h)) (OptionView.id e) = Some i.
Proof.
  intros Hi Hbefore. unfold find_option.
  apply find_seq_first; [lia | by apply lookup_lt_Some in Hi | |].
  - rewrite Hi. apply String.eqb_refl.
  - intros j _ Hj. destruct (h !! j) as [e'|] eqn:Hj'; [|done].
    apply String.eqb_neq. by eapply Hbefore.
Qed.

Lemma map_alter_insert {B} (g : OptionView.t -> B) (f : OptionView.t -> OptionView.t)
    (h : Heap) (i : nat) (e : OptionView.t) :
  h !! i = Some e → map g (alter f i h) = <[i := g (f e)]> (map g h).
Proof.
  revert i. induction h as [|x h IH]; intros i Hi; [done|].
  destruct i as [|i]; simpl in *; [by injection Hi as -> | f_equal; by apply IH].
Qed.

Lemma total_acc (l : list (string * Z)) (a : Z) :
  fold_left (fun sum opt => sum + opt.2) l a
  = a + fold_left (fun sum opt => sum + opt.2) l 0.
Proof.
  revert a. induction l as [|x l IH]; intros a; simpl; [lia|].
  rewrite (IH (a + x.2)), (IH (0 + x.2)). lia.
Qed.

Lemma total_insert (l : list (string * Z)) (i : nat) (s s' : string) (n k : Z) :
  l !! i = Some (s, n) →
  fold_left (fun sum opt => sum + opt.2) (<[i := (s', n + k)]> l) 0
  = fold_left (fun sum opt => sum + opt.2) l 0 + k.
Proof.
  revert i. induction l as [|x l IH]; intros i Hi; [done|].
  destruct i as [|i]; simpl in *.
  - injection Hi as ->. simpl. rewrite (total_acc l (0 + (n + k))), (total_acc l (0 + n)). lia.
  - rewrite (total_acc _ (0 + x.2)), (total_acc l (0 + x.2)), (IH i Hi). lia.
Qed.

(** A render of a card whose options are the whole heap, with one queued
    guess that is found at address [i]. *)
Lemma render_guess (c : Card) (o : string) (i : nat) :
  pending c = [o] →
  find_option (heap c) (PollObj.options (pollData c)) o = Some i →
  render c = mkCard (alter increment i (heap c)) (pollData c) (isLoggedIn c) [o]
               (with_userVote (pollData c) (Some o)) (submitted c).
Proof.
  intros Hp Hf. unfold render. rewrite Hp. cbn [useOptimistic].
  by rewrite (updater_found _ _ _ _ Hf).
Qed.

(** The card after an accepted press on a freshly mounted card. *)
Lemma press_on_mount (pv : PollView.t) (loggedIn : bool)
    (disabled : Card -> bool) (i : nat) (e : OptionView.t) :
  PollView.options pv !! i = Some e →
  (∀ j e', (j < i)%nat → PollView.options pv !! j = Some e' →
           OptionView.id e' ≠ OptionView.id e) →
  let c := mount pv loggedIn in
  disabled c = false →
  let c1 := click disabled (OptionView.id e) c in
  c1 = mkCard (alter increment i (PollView.options pv)) (hydrate pv []).1 loggedIn
         [OptionView.id e] (with_userVote (hydrate pv []).1 (Some (OptionView.id e)))
         [OptionView.id e] ∧
  shown_votes c1 = <[i := (OptionView.id e, OptionView.votes e + 1)]> (shown_votes c).
Proof.
  intros Hi Hbefore c Hen c1.
  pose proof (find_option_first _ i e Hi Hbefore) as Hf.
  assert (c1 = mkCard (alter increment i (PollView.options pv)) (hydrate pv []).1 loggedIn
                 [OptionView.id e]
                 (with_userVote (hydrate pv []).1 (Some (OptionView.id e)))
                 [OptionView.id e]) as Hc1.
  { subst c1. unfold click. rewrite Hen. subst c. rewrite mount_eq. unfold handleVote.
    cbn [heap pollData isLoggedIn pending optimisticPoll submitted app].
    by rewrite (render_guess _ (OptionView.id e) i). }
  split; [done|].
  rewrite Hc1. subst c. rewrite shown_votes_mount. unfold shown_votes.
  cbn [heap optimisticPoll with_userVote PollObj.options hydrate fst length app].
  pose proof (heap_read (fun o => (OptionView.id o, OptionView.votes o)) []
                (alter increment i (PollView.options pv))) as Hr.
  cbn [app length] in Hr. rewrite length_alter in Hr. rewrite Hr.
  by rewrite (map_alter_insert _ _ _ _ _ Hi).
Qed.

(** X14. On a freshly mounted card whose buttons are enabled, a press on an
    option adds one to the count shown for that option (the first of that
    id) and to the total, leaves every other count as it was, shows the
    option as the user's vote and issues one [submitVote] call. *)
Theorem accepted_press_shows_guess (pv : PollView.t) (loggedIn : bool)
    (disabled : Card -> bool) (i : nat) (e : OptionView.t) :
  PollView.options pv !! i = Some e →
  (∀ j e', (j < i)%nat → PollView.options pv !! j = Some e' →
           OptionView.id e' ≠ OptionView.id e) →
  let c := mount pv loggedIn in
  disabled c = false →
  let c1 := click disabled (OptionView.id e) c in
  shown_votes c1 = <[i := (OptionView.id e, OptionView.votes e + 1)]> (shown_votes c) ∧
  totalVotes c1 = totalVotes c + 1 ∧
  PollObj.userVote (optimisticPoll c1) = Some (OptionView.id e) ∧
  submitted c1 = [OptionView.id e].
Proof.
  intros Hi Hbefore c Hen c1.
  destruct (press_on_mount pv loggedIn disabled i e Hi Hbefore Hen) as [Hc1 Hs].
  fold c c1 in Hc1, Hs.
  split; [done|]. split; [|by rewrite Hc1].
  unfold totalVotes. rewrite Hs. apply total_insert with (s := OptionView.id e).
  subst c. rewrite shown_votes_mount.
  change (((fun x => (OptionView.id x, OptionView.votes x)) <$> PollView.options pv) !! i
          = Some (OptionView.id e, OptionView.votes e)).
  by rewrite list_lookup_fmap, Hi.
Qed.

Lemma accepted_press_shows_guess_witness :
  let c := mount best_language true in
  let c1 := click disabled_1 "rust" c in
  shown_votes c1 = <[1%nat := ("rust", 0 + 1)]> (shown_votes c) ∧
  totalVotes c1 = totalVotes c + 1 ∧
  PollObj.userVote (optimisticPoll c1) = Some "rust" ∧
  submitted c1 = ["rust"].
Proof.
  apply (accepted_press_shows_guess best_language true disabled_1 1
           (OptionView.mk "rust" "Rust" "p" 0)).
  - reflexivity.
  - intros j e' Hj He'. destruct j as [|j]; [|lia]. injection He' as <-. discriminate.
  - reflexivity.
Defined.

Lemma alter_as_insert (f : OptionView.t -> OptionView.t) (h : Heap) (i : nat)
    (e : OptionView.t) :
  h !! i = Some e → alter f i h = <[i := f e]> h.
Proof.
  revert i. induction h as [|x h IH]; intros i Hi; [done|].
  destruct i as [|i]; simpl in *; [by injection Hi as -> | f_equal; by apply IH].
Qed.

(** A render while the guess for [e] is queued, on a heap in which [e] has
    already been incremented [m] times. *)
Lemma render_again (h : Heap) (p view : PollObj.t) (b : bool) (sub : list string)
    (i : nat) (e : OptionView.t) (m : Z) :
  h !! i = Some e →
  (∀ j e', (j < i)%nat → h !! j = Some e' → OptionView.id e' ≠ OptionView.id e) →
  PollObj.options p = seq 0 (length h) →
  render (mkCard (<[i := OptionView.mk (OptionView.id e) (OptionView.text e)
                          (OptionView.pollId e) (OptionView.votes e + m)]> h)
            p b [OptionView.id e] view sub)
  = mkCard (<[i := OptionView.mk (OptionView.id e) (OptionView.text e)
                     (OptionView.pollId e) (OptionView.votes e + (m + 1))]> h)
      p b [OptionView.id e] (with_userVote p (Some (OptionView.id e))) sub.
Proof.
  intros Hi Hbefore Hopts.
  pose proof (lookup_lt_Some _ _ _ Hi) as Hlt.
  set (em := OptionView.mk (OptionView.id e) (OptionView.text e) (OptionView.pollId e)
               (OptionView.votes e + m)).
  assert (<[i := em]> h !! i = Some em) as Him by by apply list_lookup_insert_eq.
  assert (find_option (<[i := em]> h) (PollObj.options p) (OptionView.id e) = Some i) as Hf.
  { rewrite Hopts, <- (length_insert h i em).
    apply (find_option_first (<[i := em]> h) i em Him).
    intros j e' Hj He'. rewrite list_lookup_insert_ne in He' by lia. by eapply Hbefore. }
  rewrite (render_guess _ (OptionView.id e) i) by done.
  cbn [heap pollData isLoggedIn submitted].
  rewrite (alter_as_insert increment _ i em Him), list_insert_insert_eq.
  unfold increment, em; simpl. by rewrite Z.add_assoc.
Qed.

(** X15. While the call is pending every further render of the card adds
    one more to the count shown for the option voted for: after the press
    and [k] more renders it shows [k + 1] more than the props, because each
    render runs the update function again on the option object of the
    props. *)
Theorem rerenders_accumulate (pv : PollView.t) (loggedIn : bool)
    (disabled : Card -> bool) (i : nat) (e : OptionView.t) (k : nat) :
  PollView.options pv !! i = Some e →
  (∀ j e', (j < i)%nat → PollView.options pv !! j = Some e' →
           OptionView.id e' ≠ OptionView.id e) →
  let c := mount pv loggedIn in
  disabled c = false →
  let ck := fold_left background (replicate k Rerender) (click disabled (OptionView.id e) c) in
  shown_votes ck
  = <[i := (OptionView.id e, OptionView.votes e + 1 + Z.of_nat k)]> (shown_votes c).
Proof.
  intros Hi Hbefore c Hen ck.
  set (h := PollView.options pv). set (p := (hydrate pv []).1).
  set (card := fun m : Z =>
         mkCard (<[i := OptionView.mk (OptionView.id e) (OptionView.text e)
                            (OptionView.pollId e) (OptionView.votes e + m)]> h)
           p loggedIn [OptionView.id e] (with_userVote p (Some (OptionView.id e)))
           [OptionView.id e]).
  assert (Hopts : PollObj.options p = seq 0 (length h)) by done.
  assert (Hstart : click disabled (OptionView.id e) c = card 1).
  { unfold click. rewrite Hen. subst c. rewrite mount_eq. unfold handleVote.
    cbn [heap pollData isLoggedIn pending optimisticPoll submitted app].
    rewrite (render_guess _ (OptionView.id e) i)
      by (try done; apply (find_option_first _ i e Hi Hbefore)).
    cbn [heap pollData isLoggedIn submitted].
    by rewrite (alter_as_insert increment _ i e Hi). }
  assert (Hrun : ∀ n m, fold_left background (replicate n Rerender) (card m)
                        = card (m + Z.of_nat n)).
  { induction n as [|n IH]; intros m.
    - simpl. by rewrite Z.add_0_r.
    - cbn [replicate fold_left background]. unfold card at 1.
      rewrite (render_again h p _ loggedIn _ i e m Hi Hbefore Hopts).
      fold (card (m + 1)). rewrite IH. f_equal. lia. }
  subst ck. rewrite Hstart, Hrun. unfold card, shown_votes at 1.
  cbn [heap optimisticPoll with_userVote PollObj.options]. rewrite Hopts.
  match goal with |- context [<[i := ?x]> h] =>
    pose proof (heap_read (fun o => (OptionView.id o, OptionView.votes o)) []
                  (<[i := x]> h)) as Hr;
    cbn [app length] in Hr; rewrite length_insert in Hr; rewrite Hr;
    rewrite <- (alter_as_insert (fun _ => x) h i e Hi)
  end.
  subst c. rewrite shown_votes_mount. fold h.
  rewrite (map_alter_insert _ _ _ _ _ Hi). simpl. by rewrite Z.add_assoc.
Qed.

Lemma rerenders_accumulate_witness :
  shown_votes (fold_left background (replicate 3 Rerender)
                 (click disabled_1 "go" (mount best_language true)))
  = <[0%nat := ("go", 0 + 1 + Z.of_nat 3)]> (shown_votes (mount best_language true)).
Proof.
  apply (rerenders_accumulate best_language true disabled_1 0
           (OptionView.mk "go" "Go" "p" 0) 3).
  - reflexivity.
  - intros j e' Hj. lia.
  - reflexivity.
Defined.

(** ** The Prisma client of the process *)

Lemma reloads_with_global (production : bool) (n : nat) (client made : nat) :
  (reloads production n (mkProcess (Some client) made)).1 = replicate n client ∧
  (reloads production n (mkProcess (Some client) made)).2 = mkProcess (Some client) made.
Proof.
  induction n as [|n [IH1 IH2]]; [done|]. cbn [reloads load_prisma globalThis_prisma].
  assert ((if production then mkProcess (Some client) made
           else mkProcess (Some client) (constructed (mkProcess (Some client) made)))
          = mkProcess (Some client) made) as -> by by destruct production.
  destruct (reloads production n (mkProcess (Some client) made)) as [rest g2].
  simpl in *. by subst.
Qed.

(** X16. Outside production, however often the module is evaluated, every
    evaluation exports the same client and at most one client is
    constructed: none when [globalThis.prisma] was set, one otherwise. In
    production [globalThis.prisma] is never written, so every evaluation
    that finds it unset constructs a client of its own. *)
Theorem prisma_singleton (n : nat) (g : Process) :
  let first := default (constructed g) (globalThis_prisma g) in
  let made := match globalThis_prisma g with Some _ => 0%nat | None => 1%nat end in
  (reloads false (S n) g).1 = replicate (S n) first ∧
  constructed (reloads false (S n) g).2 = (constructed g + made)%nat ∧
  globalThis_prisma (reloads false (S n) g).2 = Some first ∧
  (reloads true n g).1 = match globalThis_prisma g with
                         | Some client => replicate n client
                         | None => seq (constructed g) n
                         end ∧
  globalThis_prisma (reloads true n g).2 = globalThis_prisma g.
Proof.
  destruct g as [[client|] made0]; cbn [default globalThis_prisma constructed].
  - destruct (reloads_with_global false (S n) client made0) as [-> ->].
    destruct (reloads_with_global true n client made0) as [-> ->].
    cbn [constructed globalThis_prisma]. repeat split; (done || lia).
  - split; [|split; [|split]].
    + cbn [reloads load_prisma globalThis_prisma prismaClientSingleton constructed].
      destruct (reloads_with_global false n made0 (S made0)) as [H1 H2].
      destruct (reloads false n (mkProcess (Some made0) (S made0))) as [rest g2].
      simpl in *. by subst.
    + cbn [reloads load_prisma globalThis_prisma prismaClientSingleton constructed].
      destruct (reloads_with_global false n made0 (S made0)) as [H1 H2].
      destruct (reloads false n (mkProcess (Some made0) (S made0))) as [rest g2].
      simpl in *. subst. simpl. lia.
    + cbn [reloads load_prisma globalThis_prisma prismaClientSingleton constructed].
      destruct (reloads_with_global false n made0 (S made0)) as [H1 H2].
      destruct (reloads false n (mkProcess (Some made0) (S made0))) as [rest g2].
      simpl in *. by subst.
    + revert made0. induction n as [|n IH]; intros made0; [done|].
      cbn [reloads load_prisma globalThis_prisma prismaClientSingleton constructed].
      destruct (IH (S made0)) as [IH1 IH2].
      destruct (reloads true n (mkProcess None (S made0))) as [rest g2].
      simpl in *. by subst.
Qed.

(** ** Sessions *)

Lemma issued_id (cuid : nat -> string) (d : Store.t) (x : string) :
  well_formed cuid d → x ∈ all_ids d → ∃ k, (k < Store.next d)%nat ∧ x = cuid k.
Proof.
  intros (_ & Hi & _) Hx. unfold ids_issued in Hi. rewrite Hi in Hx.
  apply list_elem_of_In, in_map_iff in Hx as (k & <- & Hk). apply in_seq in Hk.
  exists k. split; [lia | done].
Qed.

(** X17. The session that the callback builds for a stored user, from a
    session that has a user object, passes the guard of both actions as that
    user, whatever id the incoming session carried, and that user exists
    for the foreign key of a vote; a session without user object is
    returned as it came and does not pass the guard. *)
Theorem session_callback_authenticates (cuid : nat -> string) (history : list Request)
    (session : Session.t) (u : User.t) :
  (∀ n, cuid n ≠ "") →
  let d := db (run cuid history boot) in
  u ∈ Store.users d →
  match Session.user session with
  | Some _ =>
      authenticated (Some (session_callback session u)) = Some (User.id u) ∧
      Store.has_user (User.id u) d = true
  | None =>
      session_callback session u = session ∧ authenticated (Some session) = None
  end.
Proof.
  intros Hcuid d Hu. unfold session_callback.
  destruct (Session.user session) as [su|] eqn:Hs.
  - assert (User.id u ≠ "") as Hne.
    { destruct (issued_id cuid d (User.id u)) as (k & _ & ->); [| |apply Hcuid].
      - apply run_well_formed, empty_well_formed.
      - unfold all_ids. apply elem_of_app. left. apply list_elem_of_In, in_map.
        by apply list_elem_of_In. }
    split.
    + unfold authenticated, session_user_id; simpl. apply truthy_true in Hne.
      rewrite truthy_Some in Hne. by rewrite Hne.
    + apply existsb_elem. exists u. split; [done | apply String.eqb_refl].
  - split; [done|]. unfold authenticated, session_user_id; simpl. by rewrite Hs.
Qed.

Lemma session_callback_authenticates_witness :
  authenticated (Some (session_callback
                         (Session.mk (Some (Session.mkUser None (Some "Alice"))))
                         (User.mk "a" (Some "Alice") (Some "alice@example.com"))))
  = Some "a" ∧
  Store.has_user "a" (db scenario) = true.
Proof.
  apply (session_callback_authenticates sample_cuid
           [SignUp (Some "Alice") (Some "alice@example.com");
            CreatePoll [("question", "Best language?"); ("option", "Go");
                        ("option", "Rust")] alice 1]
           (Session.mk (Some (Session.mkUser None (Some "Alice"))))
           (User.mk "a" (Some "Alice") (Some "alice@example.com"))).
  - apply sample_cuid_nonempty.
  - vm_compute. apply list_elem_of_here.
Defined.

(** ** The poll form *)

(** X18. When [createPoll] answers with an error, because nobody is signed
    in or because the submission is invalid, [handleFormAction] reports
    nothing and clears every input of the form all the same; the server is
    left as it was. *)
Theorem form_cleared_on_error (cuid : nat -> string) (form : FormData)
    (session : option Session.t) (now : Z) (w : World) :
  authenticated session = None ∨ invalid_submission form →
  handleFormAction cuid form session now true w = (Resolved (), reset form, w) ∧
  map fst (reset form) = map fst form ∧
  ∀ value, value ∈ map snd (reset form) → value = "".
Proof.
  intros H. split; [|split].
  - unfold handleFormAction.
    assert (∃ error, createPoll cuid form session now w = (Resolved (Some error), w))
      as (error & ->); [|done].
    destruct (authenticated session) as [uid|] eqn:Ha.
    + destruct H as [H|H]; [done|]. eexists. unfold createPoll.
      by rewrite Ha, (invalid_submission_guard form H).
    + eexists. unfold createPoll. by rewrite Ha.
  - unfold reset. rewrite map_map. done.
  - unfold reset. rewrite map_map. intros value Hv.
    by apply list_elem_of_In, in_map_iff in Hv as (e & <- & _).
Qed.

Lemma form_cleared_on_error_witness :
  handleFormAction sample_cuid [("question", "X"); ("option", "only one"); ("option", "")]
    alice 2 true scenario
  = (Resolved (), [("question", ""); ("option", ""); ("option", "")], scenario).
Proof.
  apply (form_cleared_on_error sample_cuid
           [("question", "X"); ("option", "only one"); ("option", "")] alice 2 scenario).
  right. right. right. vm_compute. lia.
Defined.

(** X19. When the store refuses the poll, because the signed-in author has
    no [User] row, the exception of [createPoll] passes through
    [handleFormAction]: the form is not reset, the inputs keep their values,
    nothing is stored and nothing is revalidated. *)
Theorem form_kept_on_exception (cuid : nat -> string) (form : FormData)
    (session : option Session.t) (uid q : string) (now : Z) (mounted : bool) (w : World) :
  authenticated session = Some uid →
  Store.has_user uid (db w) = false →
  get "question" form = Some q →
  q ≠ "" →
  let texts := filter (fun text => trim text ≠ "") (getAll "option" form) in
  (2 ≤ length texts)%nat →
  handleFormAction cuid form session now mounted w
  = (Rejected P2003, form, mkWorld (db w) (log w ++ [CallPollCreate q uid texts])).
Proof.
  intros Ha Hu Hq Hne texts Hlen.
  unfold handleFormAction, createPoll, Store.poll_create. rewrite Ha, Hq.
  apply truthy_true in Hne. rewrite Hne. fold texts.
  assert ((length texts <? 2)%nat = false) as -> by (apply Nat.ltb_ge; lia).
  simpl. by rewrite Hu.
Qed.

Lemma form_kept_on_exception_witness :
  handleFormAction sample_cuid [("question", "Q"); ("option", "x"); ("option", "y")]
    (session_of "ghost") 2 true scenario
  = (Rejected P2003, [("question", "Q"); ("option", "x"); ("option", "y")],
     mkWorld (db scenario) (log scenario ++ [CallPollCreate "Q" "ghost" ["x"; "y"]])).
Proof.
  apply (form_kept_on_exception sample_cuid
           [("question", "Q"); ("option", "x"); ("option", "y")]
           (session_of "ghost") "ghost" "Q" 2 true scenario).
  - reflexivity.
  - reflexivity.
  - reflexivity.
  - discriminate.
  - vm_compute. lia.
Defined.

(** ** Seeding *)

Lemma user_create_evolves (cuid : nat -> string) (name email : option string) (d : Store.t) :
  evolves d (Store.user_create cuid name email d).2.
Proof.
  unfold Store.user_create. destruct (Store.has_email email d); simpl; constructor.
Qed.

Lemma evolves_has_email (d d' : Store.t) (email : option string) :
  evolves d d' → Store.has_email email d = true → Store.has_email email d' = true.
Proof.
  unfold Store.has_email. destruct email as [a|]; [|done].
  intros []; simpl; try done. rewrite existsb_app. intros ->. done.
Qed.

(** What holds of the store after the first call of a chain and is kept by
    every later call holds at the end of the chain. *)
Lemma and_then_keeps {A B} (P : Store.t -> Prop) (r : Outcome A PrismaError * Store.t)
    (k : A -> Store.t -> Outcome B PrismaError * Store.t) :
  P r.2 → (∀ a d, P d → P (k a d).2) → P (and_then r k).2.
Proof. destruct r as [[a|e] d]; simpl; auto. Qed.

Lemma first_option_store (created : Poll.t * list Option_.t) (d : Store.t) :
  (first_option created d).2 = d.
Proof. unfold first_option. by destruct created.2. Qed.

(** X20. The seed script that creates its users runs once: whenever a run
    has succeeded, Alice's email is stored, and any further run is refused
    by the unique constraint on [email] at its first insert and changes
    nothing. *)
Theorem seed_create_runs_once (cuid : nat -> string) (now1 now2 now3 now1' now2' now3' : Z)
    (d : Store.t) :
  (seed_create cuid now1 now2 now3 d).1 = Resolved () →
  let d' := (seed_create cuid now1 now2 now3 d).2 in
  Store.has_email (Some "alice@example.com") d' = true ∧
  seed_create cuid now1' now2' now3' d' = (Rejected P2002, d').
Proof.
  intros Hok d'.
  assert (Store.has_email (Some "alice@example.com") d' = true) as He.
  { subst d'. revert Hok. unfold seed_create.
    destruct (Store.user_create cuid (Some "Alice") (Some "alice@example.com") d)
      as [[user1|e] d1] eqn:H1; [|done].
    intros _. cbn [and_then].
    assert (Store.has_email (Some "alice@example.com") d1 = true) as Hd1.
    { revert H1. unfold Store.user_create.
      destruct (Store.has_email (Some "alice@example.com") d); [done|].
      intros [= <- <-]. unfold Store.has_email; simpl. rewrite existsb_app; simpl.
      apply orb_true_r. }
    repeat (apply and_then_keeps;
            [ first [ rewrite first_option_store; assumption
                    | eapply evolves_has_email;
                      [ first [ apply user_create_evolves | apply poll_create_evolves
                              | apply vote_create_evolves ]
                      | assumption ] ]
            | intros ? ? ? ]).
    assumption. }
  split; [done|].
  unfold seed_create at 1, Store.user_create. by rewrite He.
Qed.

Lemma seed_create_runs_once_witness :
  let d' := (seed_create unary_cuid 1 2 3 Store.empty).2 in
  Store.has_email (Some "alice@example.com") d' = true ∧
  seed_create unary_cuid 4 5 6 d' = (Rejected P2002, d').
Proof.
  apply (seed_create_runs_once unary_cuid 1 2 3 4 5 6 Store.empty). reflexivity.
Defined.

(** No stored vote is a vote for an option whose id is yet to be issued. *)
Lemma fresh_option_unvoted (cuid : nat -> string) (d : Store.t) (n : nat) (uid : string) :
  (∀ m k, cuid m = cuid k → m = k) →
  well_formed cuid d →
  (Store.next d ≤ n)%nat →
  Store.has_vote (cuid n) uid d = false.
Proof.
  intros Hinj Hwf Hn.
  destruct (Store.has_vote (cuid n) uid d) eqn:E; [|done]. exfalso.
  apply existsb_elem in E as (v & Hv & (Hvo & _)%same_pair_true).
  destruct Hwf as ((Hu & Hfk & Hofk) & Hrest).
  destruct (Hfk v Hv) as [Ho _]. rewrite Hvo in Ho.
  apply existsb_elem in Ho as (o & Ho & Hid%String.eqb_eq).
  destruct (issued_id cuid d (cuid n)) as (k & Hk & Heq).
  - done.
  - unfold all_ids. rewrite !elem_of_app. right. right. left.
    rewrite <- Hid. apply list_elem_of_In, in_map. by apply list_elem_of_In.
  - apply Hinj in Heq. lia.
Qed.

Lemma find_existsb {A} (f : A -> bool) (l : list A) :
  List.find f l = None ↔ existsb f l = false.
Proof.
  induction l as [|x l IH]; simpl; [done|]. destruct (f x); simpl; [|done].
  split; intros; discriminate.
Qed.

Lemma user_upsert_spec (cuid : nat -> string) (name : option string) (email : string)
    (d : Store.t) :
  well_formed cuid d →
  ∃ u d1, user_upsert cuid name email d = (Resolved u, d1) ∧
          well_formed cuid d1 ∧ evolves d d1 ∧
          Store.has_user (User.id u) d1 = true ∧
          User.email u = Some email ∧
          Store.has_email (Some email) d1 = true ∧
          Store.users d1
          = Store.users d ++ (if Store.has_email (Some email) d then [] else [u]) ∧
          Store.polls d1 = Store.polls d ∧ Store.options d1 = Store.options d ∧
          Store.votes d1 = Store.votes d.
Proof.
  intros Hwf. unfold user_upsert.
  destruct (List.find _ (Store.users d)) as [u|] eqn:Hf.
  - assert (Store.has_email (Some email) d = true) as He.
    { unfold Store.has_email.
      destruct (existsb _ (Store.users d)) eqn:E; [done|].
      apply find_existsb in E. congruence. }
    apply find_some in Hf as (Hin & Hm).
    exists u, d. rewrite He, app_nil_r.
    split; [done|]. split; [done|]. split; [constructor|].
    split; [|split; [|done]].
    + apply existsb_exists. exists u. split; [done | apply String.eqb_refl].
    + destruct (User.email u) as [b|]; [|done]. by apply String.eqb_eq in Hm as ->.
  - assert (Store.has_email (Some email) d = false) as He
      by (unfold Store.has_email; by apply find_existsb).
    pose proof (user_create_well_formed cuid name (Some email) d Hwf) as Hwf1.
    pose proof (user_create_evolves cuid name (Some email) d) as Hev.
    unfold Store.user_create in *. rewrite He in *. simpl in *.
    eexists _, _. split; [done|]. split; [done|]. split; [done|].
    split; [|split; [done|split; [|done]]].
    + unfold Store.has_user; simpl. rewrite existsb_app; simpl.
      rewrite String.eqb_refl. apply orb_true_r.
    + unfold Store.has_email; simpl. rewrite existsb_app; simpl.
      rewrite String.eqb_refl. apply orb_true_r.
Qed.

(** X21. The seed script that upserts its users can be run on any
    well-formed store, any number of times: with a generator that never
    repeats, every run succeeds, leaves a well-formed store in which both
    emails are stored, adds exactly one poll, two options and one vote, and
    adds a user only for an email that was not stored. *)
Theorem seed_upsert_rerunnable (cuid : nat -> string) (now1 : Z) (d : Store.t) :
  (∀ m n, cuid m = cuid n → m = n) →
  well_formed cuid d →
  let r := seed_upsert cuid now1 d in
  r.1 = Resolved () ∧ well_formed cuid r.2 ∧
  Store.has_email (Some "alice@example.com") r.2 = true ∧
  Store.has_email (Some "bob@example.com") r.2 = true ∧
  length (Store.users r.2)
  = (length (Store.users d)
     + (if Store.has_email (Some "alice@example.com") d then 0 else 1)
     + (if Store.has_email (Some "bob@example.com") d then 0 else 1))%nat ∧
  length (Store.polls r.2) = S (length (Store.polls d)) ∧
  length (Store.options r.2) = (length (Store.options d) + 2)%nat ∧
  length (Store.votes r.2) = S (length (Store.votes d)).
Proof.
  intros Hinj Hwf r. subst r. unfold seed_upsert.
  destruct (user_upsert_spec cuid (Some "Alice") "alice@example.com" d Hwf)
    as (u1 & d1 & -> & Hwf1 & Hev1 & Hu1 & Hm1 & He1 & Hus1 & Hp1 & Ho1 & Hv1).
  cbn [and_then].
  destruct (user_upsert_spec cuid (Some "Bob") "bob@example.com" d1 Hwf1)
    as (u2 & d2 & -> & Hwf2 & Hev2 & Hu2 & Hm2 & He2 & Hus2 & Hp2 & Ho2 & Hv2).
  cbn [and_then].
  assert (Store.has_user (User.id u1) d2 = true) as Hu12 by by apply (evolves_has d1 d2).
  pose proof (poll_create_well_formed cuid
                "What is the best framework for full-stack development?" (User.id u1)
                ["Next.js"; "SvelteKit"] now1 d2 Hwf2) as Hwf3.
  pose proof (poll_create_evolves cuid
                "What is the best framework for full-stack development?" (User.id u1)
                ["Next.js"; "SvelteKit"] now1 d2) as Hev3.
  unfold Store.poll_create in *. rewrite Hu12 in *.
  cbn [negb and_then first_option snd Store.new_options] in *.
  match type of Hwf3 with well_formed _ ?x => set (d3 := x) in * end.
  pose proof (vote_create_well_formed cuid (cuid (S (Store.next d2))) (User.id u1) d3 Hwf3)
    as Hwf4.
  assert (Store.has_vote (cuid (S (Store.next d2))) (User.id u1) d3 = false) as Hfresh
    by (apply (fresh_option_unvoted cuid d2 (S (Store.next d2))); [done | done | lia]).
  assert (Store.has_option (cuid (S (Store.next d2))) d3 = true) as Hopt.
  { unfold Store.has_option, d3; simpl. rewrite existsb_app; simpl.
    rewrite String.eqb_refl. apply orb_true_r. }
  assert (Store.has_user (User.id u1) d3 = true) as Hu13 by by apply (evolves_has d2 d3).
  unfold Store.vote_create in *. cbn [Option_.id] in *. rewrite Hfresh, Hopt, Hu13 in *.
  cbn [negb orb and_then fst snd] in *.
  split; [done|]. split; [done|].
  assert (Store.has_email (Some "alice@example.com") d2 = true) as He12
    by by apply (evolves_has_email d1 d2).
  split; [exact He12|]. split; [exact He2|].
  cbn [Store.users Store.polls Store.options Store.votes d3].
  rewrite !length_app, Hus2, Hus1, Hp2, Hp1, Ho2, Ho1, Hv2, Hv1, !length_app.
  assert (Store.has_email (Some "bob@example.com") d1
          = Store.has_email (Some "bob@example.com") d) as ->.
  { unfold Store.has_email. rewrite Hus1.
    destruct (Store.has_email (Some "alice@example.com") d);
      rewrite existsb_app; simpl; [apply orb_false_r|].
    rewrite Hm1. apply orb_false_r. }
  destruct (Store.has_email (Some "alice@example.com") d),
           (Store.has_email (Some "bob@example.com") d); simpl; repeat split; lia.
Qed.

Lemma seed_upsert_rerunnable_witness :
  (seed_upsert unary_cuid 2 (seed_upsert unary_cuid 1 Store.empty).2).1 = Resolved () ∧
  length (Store.users (seed_upsert unary_cuid 2 (seed_upsert unary_cuid 1 Store.empty).2).2)
  = 2%nat.
Proof.
  destruct (seed_upsert_rerunnable unary_cuid 1 Store.empty unary_cuid_inj
              (empty_well_formed unary_cuid)) as (_ & Hwf & _).
  destruct (seed_upsert_rerunnable unary_cuid 2 _ unary_cuid_inj Hwf) as (H & _).
  split; [exact H | reflexivity].
Defined.

Lemma cuid_eqb (cuid : nat -> string) (m n : nat) :
  (∀ a b, cuid a = cuid b → a = b) → m ≠ n → String.eqb (cuid m) (cuid n) = false.
Proof. intros Hinj Hne. apply String.eqb_neq. intros H. by apply Hinj in H. Qed.

Ltac settle_has_user :=
  match goal with |- context [Store.has_user ?e ?s] =>
    assert (Store.has_user e s = true) as ->
      by (unfold Store.has_user; cbn [Store.users User.id]; rewrite !existsb_app;
          cbn [existsb User.id];
          rewrite ?String.eqb_refl, ?orb_true_l, ?orb_true_r; reflexivity) end.

Ltac settle_has_option :=
  match goal with |- context [Store.has_option ?e ?s] =>
    assert (Store.has_option e s = true) as ->
      by (unfold Store.has_option; cbn [Store.options Option_.id]; rewrite !existsb_app;
          cbn [existsb Option_.id];
          rewrite ?String.eqb_refl, ?orb_true_l, ?orb_true_r; reflexivity) end.

(** X22. On a well-formed store in which neither of its two emails is
    stored, with a generator that never repeats, the seed script that
    creates its users succeeds and adds exactly two users, three polls, ten
    options and three votes, and the store it leaves is well-formed. *)
Theorem seed_create_succeeds (cuid : nat -> string) (now1 now2 now3 : Z) (d : Store.t) :
  (∀ m n, cuid m = cuid n → m = n) →
  well_formed cuid d →
  Store.has_email (Some "alice@example.com") d = false →
  Store.has_email (Some "bob@example.com") d = false →
  let r := seed_create cuid now1 now2 now3 d in
  r.1 = Resolved () ∧
  well_formed cuid r.2 ∧
  length (Store.users r.2) = (length (Store.users d) + 2)%nat ∧
  length (Store.polls r.2) = (length (Store.polls d) + 3)%nat ∧
  length (Store.options r.2) = (length (Store.options d) + 10)%nat ∧
  length (Store.votes r.2) = (length (Store.votes d) + 3)%nat.
Proof.
  intros Hinj Hwf Ha Hb r.
  assert (well_formed cuid r.2) as Hwf'.
  { subst r. unfold seed_create.
    repeat (apply and_then_keeps;
            [ first [ rewrite first_option_store; assumption
                    | apply user_create_well_formed; assumption
                    | apply poll_create_well_formed; assumption
                    | apply vote_create_well_formed; assumption ]
            | intros ? ? ? ]).
    assumption. }
  revert Hwf'.
  assert (∃ d', r = (Resolved (), d') ∧
                length (Store.users d') = (length (Store.users d) + 2)%nat ∧
                length (Store.polls d') = (length (Store.polls d) + 3)%nat ∧
                length (Store.options d') = (length (Store.options d) + 10)%nat ∧
                length (Store.votes d') = (length (Store.votes d) + 3)%nat)
    as (d' & -> & H); [|done].
  subst r. unfold seed_create.
  unfold Store.user_create at 1. rewrite Ha. cbn [and_then User.id].
  unfold Store.user_create at 1.
  match goal with |- context [Store.has_email ?e ?s] =>
    assert (Store.has_email e s = false) as ->
      by (unfold Store.has_email in *; cbn [Store.users]; rewrite existsb_app, Hb; reflexivity) end.
  cbn [and_then User.id Store.next Store.users Store.polls Store.options Store.votes].
  unfold Store.poll_create at 1. settle_has_user.
  cbn [negb and_then User.id Poll.id Store.next Store.users Store.polls Store.options Store.votes Store.new_options length].
  unfold Store.poll_create at 1. settle_has_user.
  cbn [negb and_then User.id Poll.id Store.next Store.users Store.polls Store.options Store.votes Store.new_options length].
  unfold Store.poll_create at 1. settle_has_user.
  cbn [negb and_then User.id Poll.id Store.next Store.users Store.polls Store.options Store.votes Store.new_options length first_option snd Option_.id].
  unfold Store.vote_create at 1.
  match goal with |- context [Store.has_vote ?x ?u ?s] =>
    assert (Store.has_vote x u s = false) as ->
      by (apply (fresh_option_unvoted cuid d); [done | done | lia]) end.
  settle_has_option. settle_has_user.
  cbn [negb orb and_then Store.next Store.users Store.polls Store.options Store.votes].
  unfold Store.vote_create at 1.
  match goal with |- context [Store.has_vote ?x ?u ?s] =>
    assert (Store.has_vote x u s = false) as ->
      by (unfold Store.has_vote; cbn [Store.votes]; rewrite existsb_app;
          change (existsb (Store.same_pair x u) (Store.votes d)) with (Store.has_vote x u d);
          rewrite (fresh_option_unvoted cuid d) by (done || lia);
          unfold Store.same_pair; cbn [existsb Vote.optionId Vote.userId orb];
          rewrite (cuid_eqb cuid (Store.next d) (S (Store.next d))) by (done || lia);
          by rewrite andb_false_r) end.
  settle_has_option. settle_has_user.
  cbn [negb orb and_then Store.next Store.users Store.polls Store.options Store.votes].
  unfold Store.vote_create at 1.
  match goal with |- context [Store.has_vote ?x ?u ?s] =>
    assert (Store.has_vote x u s = false) as ->
      by (unfold Store.has_vote; cbn [Store.votes]; rewrite !existsb_app;
          change (existsb (Store.same_pair x u) (Store.votes d)) with (Store.has_vote x u d);
          rewrite (fresh_option_unvoted cuid d) by (done || lia);
          unfold Store.same_pair; cbn [existsb Vote.optionId Vote.userId orb];
          rewrite !(cuid_eqb cuid (S (S (S (Store.next d))))) by (done || lia);
          reflexivity) end.
  settle_has_option. settle_has_user.
  cbn [negb orb and_then Store.next Store.users Store.polls Store.options Store.votes].
  eexists. split; [reflexivity|].
  cbn [Store.users Store.polls Store.options Store.votes]. rewrite !length_app. simpl. lia.
Qed.

Lemma seed_create_succeeds_witness :
  let r := seed_create unary_cuid 1 2 3 Store.empty in
  r.1 = Resolved () ∧
  well_formed unary_cuid r.2 ∧
  length (Store.users r.2) = (length (Store.users Store.empty) + 2)%nat ∧
  length (Store.polls r.2) = (length (Store.polls Store.empty) + 3)%nat ∧
  length (Store.options r.2) = (length (Store.options Store.empty) + 10)%nat ∧
  length (Store.votes r.2) = (length (Store.votes Store.empty) + 3)%nat.
Proof.
  apply (seed_create_succeeds unary_cuid 1 2 3 Store.empty).
  - exact unary_cuid_inj.
  - apply empty_well_formed.
  - reflexivity.
  - reflexivity.
Defined.

(** ** The guess and its confirmation *)

Lemma NoDup_map_filter {A B} (f : A -> B) (P : A -> Prop) `{∀ x, Decision (P x)}
    (l : list A) :
  NoDup (map f l) → NoDup (map f (filter P l)).
Proof.
  induction l as [|x l IH]; simpl; [done|]. intros [Hx Hnd]%NoDup_cons.
  rewrite filter_cons. destruct (decide (P x)); [|by apply IH]. simpl.
  apply NoDup_cons. split; [|by apply IH].
  intros Hin. apply Hx. apply list_elem_of_In, in_map_iff in Hin as (y & Hy & Hin).
  apply list_elem_of_In, list_elem_of_filter in Hin as [_ Hin].
  rewrite <- Hy. apply list_elem_of_In, in_map. by apply list_elem_of_In.
Qed.

Lemma reachable_listed_ids (cuid : nat -> string) (history : list Request) (pid : string) :
  (∀ m n, cuid m = cuid n → m = n) →
  NoDup (map OptionView.id (options_with_count (db (run cuid history boot)) pid)).
Proof.
  intros Hinj. unfold options_with_count. rewrite map_map. simpl.
  apply NoDup_map_filter.
  destruct (well_formed_ids cuid _ Hinj (reachable_well_formed cuid history)) as [Hnd _].
  unfold all_ids in Hnd.
  apply NoDup_app in Hnd as (_ & _ & Hnd). apply NoDup_app in Hnd as (_ & _ & Hnd).
  by apply NoDup_app in Hnd as (Hnd & _ & _).
Qed.

(** In a list of options with distinct ids, adding a vote to the options of
    one id changes the one entry of that id. *)
Lemma bump_one (f : OptionView.t -> OptionView.t) (l : list OptionView.t) (i : nat)
    (e : OptionView.t) :
  NoDup (map OptionView.id l) →
  l !! i = Some e →
  map (fun x => if decide (OptionView.id x = OptionView.id e) then f x else x) l
  = <[i := f e]> l.
Proof.
  revert i. induction l as [|x l IH]; intros i Hnd Hi; [done|].
  simpl in Hnd. apply NoDup_cons in Hnd as [Hx Hnd].
  destruct i as [|i]; simpl in *.
  - injection Hi as ->. rewrite decide_True by done. f_equal.
    clear IH. induction l as [|y l IH]; [done|]. simpl in *.
    apply not_elem_of_cons in Hx as [Hy Hx]. apply NoDup_cons in Hnd as [_ Hnd].
    rewrite decide_False by done. f_equal. by apply IH.
  - rewrite decide_False; [f_equal; by apply IH|].
    intros Heq. apply Hx. rewrite Heq.
    apply list_elem_of_In, in_map, list_elem_of_In. by eapply list_elem_of_lookup_2.
Qed.

Lemma distinct_ids_first (l : list OptionView.t) (i : nat) (e : OptionView.t) :
  NoDup (map OptionView.id l) →
  l !! i = Some e →
  ∀ j e', (j < i)%nat → l !! j = Some e' → OptionView.id e' ≠ OptionView.id e.
Proof.
  intros Hnd Hi j e' Hj He' Heq.
  assert (map OptionView.id l !! i = Some (OptionView.id e)) as Hi'
    by (change (map OptionView.id l) with (OptionView.id <$> l);
        by rewrite list_lookup_fmap, Hi).
  assert (map OptionView.id l !! j = Some (OptionView.id e)) as Hj'
    by (change (map OptionView.id l) with (OptionView.id <$> l);
        rewrite list_lookup_fmap, He'; simpl; by rewrite Heq).
  pose proof (NoDup_lookup _ _ _ _ Hnd Hi' Hj'). lia.
Qed.

(** The counts that the page lists after a successful vote. *)
Lemma counts_after_vote (cuid : nat -> string) (w : World) (session : option Session.t)
    (oid pid : string) :
  (submitVote cuid oid session w).1 = Resolved () →
  options_with_count (db (submitVote cuid oid session w).2) pid
  = map (fun x => if decide (OptionView.id x = oid) then increment x else x)
        (options_with_count (db w) pid).
Proof.
  intros Hok.
  destruct (submitVote_resolved cuid oid session w Hok) as (uid & Ha & Hne & Ho & Hu & Hv).
  rewrite (submitVote_first cuid oid uid session w Ha Hne Ho Hu Hv).
  unfold options_with_count. cbn [db snd Store.options]. rewrite map_map.
  apply map_ext. intros o. cbn [OptionView.id].
  unfold increment, Store.count_votes. cbn [Store.votes db snd OptionView.id OptionView.text
    OptionView.pollId OptionView.votes].
  rewrite filter_app, length_app, filter_cons, filter_nil. cbn [Vote.optionId].
  destruct (decide (Option_.id o = oid)) as [->|Hneq].
  - rewrite decide_True by done. simpl. f_equal. lia.
  - rewrite decide_False by congruence. simpl. f_equal. lia.
Qed.

(** An enabled button means that the reader has no vote on the poll. *)
Lemma enabled_no_vote (cuid : nat -> string) (history : list Request)
    (session : option Session.t) (uid : string) (poll : Poll.t) (b : bool)
    (disabled : Card -> bool) :
  (∀ k, cuid k ≠ "") →
  authenticated session = Some uid →
  disabled = disabled_1 ∨ disabled = disabled_2 →
  disabled (mount (poll_view session (db (run cuid history boot)) poll) b) = false →
  Store.find_user_vote uid (Poll.id poll) (db (run cuid history boot)) = None.
Proof.
  intros Hcuid Ha Hd Hen.
  assert (truthy (user_vote session (db (run cuid history boot)) (Poll.id poll)) = false)
    as Ht.
  { destruct (mount_disabled (poll_view session (db (run cuid history boot)) poll) b)
      as [H1 H2].
    destruct Hd as [-> | ->]; [by rewrite H1 in Hen|].
    rewrite H2 in Hen. by apply orb_false_iff in Hen as [? _]. }
  unfold user_vote in Ht. rewrite Ha in Ht.
  destruct (Store.find_user_vote uid (Poll.id poll) (db (run cuid history boot)))
    as [v|] eqn:Hf; [|done].
  exfalso. apply find_some in Hf as (Hin & _). apply list_elem_of_In in Hin.
  pose proof (reachable_vote_option cuid history v Hcuid Hin) as Hv.
  apply truthy_true in Hv. rewrite Hv in Ht. cbv iota in Ht. congruence.
Qed.

(** X23. The guess is what the server confirms. On the card of a stored
    poll, for a signed-in, stored user and an enabled button: if the store
    does not change in between, [submitVote] for the option pressed
    succeeds, and the card mounted from the next read of the page shows the
    same counts and the same user's vote as the card showed right after the
    press. *)
Theorem guess_matches_confirmation (cuid : nat -> string) (history : list Request)
    (session : option Session.t) (uid : string) (poll : Poll.t) (i : nat)
    (e : OptionView.t) (disabled : Card -> bool) (b : bool) :
  (∀ m n, cuid m = cuid n → m = n) →
  (∀ k, cuid k ≠ "") →
  authenticated session = Some uid →
  let w := run cuid history boot in
  Store.has_user uid (db w) = true →
  poll ∈ Store.polls (db w) →
  let pv := poll_view session (db w) poll in
  PollView.options pv !! i = Some e →
  disabled = disabled_1 ∨ disabled = disabled_2 →
  disabled (mount pv b) = false →
  let pressed := click disabled (OptionView.id e) (mount pv b) in
  let answer := submitVote cuid (OptionView.id e) session w in
  let pv' := poll_view session (db answer.2) poll in
  answer.1 = Resolved () ∧
  shown_votes pressed = shown_votes (mount pv' b) ∧
  PollObj.userVote (optimisticPoll pressed) = PollView.userVote pv' ∧
  PollView.userVote pv' = Some (OptionView.id e).
Proof.
  intros Hinj Hcuid Ha w Hu Hpoll pv Hi Hd Hen pressed answer pv'.
  pose proof (reachable_listed_ids cuid history (Poll.id poll) Hinj) as Hnd.
  pose proof (enabled_no_vote cuid history session uid poll b disabled Hcuid Ha Hd Hen)
    as Hnone.
  assert (e ∈ options_with_count (db w) (Poll.id poll)) as He
    by by eapply list_elem_of_lookup_2.
  pose proof He as He'.
  apply options_with_count_elem in He' as (opt & Hopt & Hpid & Heq).
  assert (OptionView.id e = Option_.id opt) as Hid by by rewrite Heq.
  assert (OptionView.id e ≠ "") as Hne
    by (rewrite Hid; by apply (run_option_ids cuid history opt)).
  assert (Store.has_option (OptionView.id e) (db w) = true) as Ho.
  { apply existsb_elem. exists opt. split; [done|]. rewrite Hid. apply String.eqb_refl. }
  assert (Store.has_vote (OptionView.id e) uid (db w) = false) as Hv.
  { destruct (Store.has_vote (OptionView.id e) uid (db w)) eqn:E; [|done]. exfalso.
    apply existsb_elem in E as (v & Hin & (Hvo & Hvu)%same_pair_true).
    unfold Store.find_user_vote in Hnone.
    pose proof (find_none _ _ Hnone v) as Hf. simpl in Hf.
    rewrite <- list_elem_of_In in Hf. specialize (Hf Hin).
    rewrite Hvu, String.eqb_refl in Hf. simpl in Hf.
    assert (Store.vote_in_poll (Poll.id poll) (db w) v = true) as Hp;
      [|unfold w in *; congruence].
    apply existsb_elem. exists opt. split; [done|].
    by rewrite Hvo, Hid, Hpid, !String.eqb_refl. }
  assert (answer.1 = Resolved ()) as Hok
    by (subst answer; by rewrite (submitVote_first cuid _ uid session w Ha Hne Ho Hu Hv)).
  destruct (press_on_mount pv b disabled i e Hi
              (distinct_ids_first _ i e Hnd Hi) Hen) as (Hcard & Hshown).
  fold pressed in Hcard, Hshown.
  assert (PollObj.userVote (optimisticPoll pressed) = Some (OptionView.id e)) as Hvote
    by by rewrite Hcard.
  assert (PollView.userVote pv' = Some (OptionView.id e)) as Hconfirmed.
  { destruct (read_after_vote cuid w session (OptionView.id e)) as (uid' & Ha' & _ & _ & _ & Hread).
    - by destruct (reachable_well_formed cuid history) as ((_ & _ & Hfk) & _).
    - done.
    - rewrite Ha in Ha'. injection Ha' as <-.
      destruct (Hread pv' (increment e)) as [_ Hvote']; [| |done|by apply Hvote'].
      + apply pollsWithUserVote_elem. exists poll. split; [|done].
        unfold answer.
        by rewrite (submitVote_first cuid _ uid session w Ha Hne Ho Hu Hv).
      + subst pv'. cbn [PollView.options poll_view]. subst answer.
        rewrite (counts_after_vote cuid w session _ _ Hok).
        apply list_elem_of_In, in_map_iff. exists e.
        split; [by rewrite decide_True | by apply list_elem_of_In]. }
  split; [done|]. split; [|split; [congruence | done]].
  rewrite Hshown, !shown_votes_mount. subst pv'. cbn [PollView.options poll_view].
  subst answer. rewrite (counts_after_vote cuid w session _ _ Hok).
  unfold pv, w in *. cbn [PollView.options poll_view] in *.
  rewrite (bump_one increment _ i e Hnd Hi).
  change (map ?g ?l) with (g <$> l). by rewrite list_fmap_insert.
Qed.

Lemma guess_matches_confirmation_witness :
  let history := [SignUp (Some "Alice") None;
                  CreatePoll [("question", "Q"); ("option", "x"); ("option", "y")]
                    (session_of "c") 1] in
  let w := run unary_cuid history boot in
  let poll := Poll.mk "ci" "Q" 1 "c" in
  let answer := submitVote unary_cuid "ciii" (session_of "c") w in
  answer.1 = Resolved () ∧
  shown_votes (click disabled_2 "ciii" (mount (poll_view (session_of "c") (db w) poll) true))
  = shown_votes (mount (poll_view (session_of "c") (db answer.2) poll) true).
Proof.
  intros history w poll answer.
  destruct (guess_matches_confirmation unary_cuid history (session_of "c") "c" poll 1
              (OptionView.mk "ciii" "y" "ci" 0) disabled_2 true) as (H1 & H2 & _).
  - exact unary_cuid_inj.
  - exact unary_cuid_nonempty.
  - reflexivity.
  - reflexivity.
  - vm_compute. apply list_elem_of_here.
  - reflexivity.
  - by right.
  - reflexivity.
  - split; [exact H1 | exact H2].
Defined.
